(** * Greedy register allocation by graph colouring: a model of [program.py]

    The development embeds the five functions of [program.py]
    ([read_interference_graph_from_file], [rank_nodes_by_neighbours],
    [assign_colours], [write_output_file], [main]) and its script entry
    point ([script]) together with the Python built-ins they rely on, and
    states the properties of the pipeline over that embedding.

    Modelling conventions.
    - A Python [str] is a [string]; a character of the model stands for the
      code point with the same number (U+0000 .. U+00FF).
    - A Python [int] is a [Z]; [int(...)] refuses, as the interpreter does by
      default, a literal of more than 4300 digits.
    - A [dict] is a [gmap], a [set] a [gset].  Every iteration over a dict in
      the program goes through [sorted] with a key that is injective on the
      entries, so the enumeration order of the map is immaterial (see
      [rank_items_enumeration] and [sorted_items_enumeration]).
    - A function that may raise returns an [outcome]; a function that returns
      either a message or a graph returns a [parsed].
    - The file system and the console are a [world] threaded through [main]:
      what reading a path yields, whether opening a path for writing raises,
      and which paths name the same file. *)

From Stdlib Require Import ZArith Ascii String List Lia.
From stdpp Require Import base option list gmap sets strings sorting pretty.

Local Open Scope Z_scope.

(** ** Python built-ins on characters and strings *)

Module Py.

(** [ord(c)] *)
Definition ord (c : ascii) : Z := Z.of_N (N_of_ascii c).

(** [c.isdigit()] for a single character: the ASCII digits and the three
    superscript digits of the Latin-1 block. *)
Definition isdigit_char (c : ascii) : bool :=
  let o := ord c in
  ((48 <=? o) && (o <=? 57)) || (o =? 178) || (o =? 179) || (o =? 185).

(** [c.isspace()] for a single character. *)
Definition isspace (c : ascii) : bool :=
  let o := ord c in
  ((9 <=? o) && (o <=? 13)) || ((28 <=? o) && (o <=? 32))
  || (o =? 133) || (o =? 160).

(** [s.isdigit()]: every character is a digit and there is at least one. *)
Fixpoint all_digits (s : string) : bool :=
  match s with
  | EmptyString => true
  | String c r => isdigit_char c && all_digits r
  end.

Definition isdigit (s : string) : bool :=
  match s with
  | EmptyString => false
  | String _ _ => all_digits s
  end.

(** [s.lstrip()], [s.rstrip()] and [s.strip()] *)
Fixpoint lstrip (s : string) : string :=
  match s with
  | EmptyString => EmptyString
  | String c r => if isspace c then lstrip r else s
  end.

Fixpoint rstrip (s : string) : string :=
  match s with
  | EmptyString => EmptyString
  | String c r =>
      match rstrip r with
      | EmptyString => if isspace c then EmptyString else String c EmptyString
      | r' => String c r'
      end
  end.

Definition strip (s : string) : string := rstrip (lstrip s).

(** [s.split(sep)] for a one-character separator. *)
Fixpoint split (sep : ascii) (s : string) : list string :=
  match s with
  | EmptyString => [EmptyString]
  | String c r =>
      if Ascii.eqb c sep then EmptyString :: split sep r
      else match split sep r with
           | [] => [String c EmptyString]
           | p :: ps => String c p :: ps
           end
  end.

(** [int(s)] in base ten; [None] stands for [ValueError].  The literal may be
    surrounded by white space, carry one sign, and separate groups of ASCII
    digits by single underscores; it may not have more than
    [max_str_digits] digits. *)
Definition int_space (c : ascii) : bool :=
  let o := ord c in
  ((9 <=? o) && (o <=? 13)) || (o =? 32) || (o =? 133) || (o =? 160).

Fixpoint int_lstrip (s : string) : string :=
  match s with
  | EmptyString => EmptyString
  | String c r => if int_space c then int_lstrip r else s
  end.

Fixpoint int_rstrip (s : string) : string :=
  match s with
  | EmptyString => EmptyString
  | String c r =>
      match int_rstrip r with
      | EmptyString => if int_space c then EmptyString else String c EmptyString
      | r' => String c r'
      end
  end.

Definition decimal (c : ascii) : option Z :=
  let o := ord c in
  if (48 <=? o) && (o <=? 57) then Some (o - 48) else None.

Inductive int_prev := AtStart | AfterDigit | AfterUnderscore.

Fixpoint int_digits (acc : Z) (prev : int_prev) (s : string) : option Z :=
  match s with
  | EmptyString =>
      match prev with AfterDigit => Some acc | _ => None end
  | String c r =>
      match decimal c with
      | Some d => int_digits (10 * acc + d) AfterDigit r
      | None =>
          if Ascii.eqb c "_"%char then
            match prev with
            | AfterDigit => int_digits acc AfterUnderscore r
            | _ => None
            end
          else None
      end
  end.

(** The default of [sys.int_info.default_max_str_digits]: a literal with
    more digit characters (leading zeros included; sign, underscores and
    surrounding white space not counted) makes [int] raise [ValueError]. *)
Definition max_str_digits : Z := 4300.

Fixpoint count_digits (s : string) : Z :=
  match s with
  | EmptyString => 0
  | String c r =>
      (match decimal c with Some _ => 1 | None => 0 end) + count_digits r
  end.

Definition int_body (body : string) : option Z :=
  if max_str_digits <? count_digits body then None
  else int_digits 0 AtStart body.

Definition int (s : string) : option Z :=
  match int_rstrip (int_lstrip s) with
  | String c r =>
      if Ascii.eqb c "+"%char then int_body r
      else if Ascii.eqb c "-"%char then Z.opp <$> int_body r
      else int_body (String c r)
  | EmptyString => None
  end.

(** [str(n)] for an integer, as used by f-strings.  The program formats
    only integers that [int] returned, which have at most 4300 digits, so
    the interpreter's limit on this conversion is never met; the definition
    also serves to write the numerals of input texts. *)
Definition str (n : Z) : string := pretty n.

(** Text-mode reading translates ["\r\n"] and a lone ["\r"] to ["\n"]. *)
Definition LF : ascii := ascii_of_nat 10.
Definition CR : ascii := ascii_of_nat 13.

Fixpoint universal_newlines (s : string) : string :=
  match s with
  | EmptyString => EmptyString
  | String c r =>
      if Ascii.eqb c CR then
        match r with
        | String c2 r2 =>
            if Ascii.eqb c2 LF then String LF (universal_newlines r2)
            else String LF (universal_newlines r)
        | EmptyString => String LF EmptyString
        end
      else String c (universal_newlines r)
  end.

(** Cut a text after every line feed; each line keeps its terminator and a
    last line without one is kept as it is. *)
Fixpoint keepends (s : string) : list string :=
  match s with
  | EmptyString => []
  | String c r =>
      if Ascii.eqb c LF then String c EmptyString :: keepends r
      else match keepends r with
           | [] => [String c EmptyString]
           | l :: ls => String c l :: ls
           end
  end.

(** [f.readlines()] on a file opened in text mode. *)
Definition readlines (text : string) : list string :=
  keepends (universal_newlines text).

End Py.

Definition nl : string := String Py.LF EmptyString.

(** ** Data model *)

(** The interference graph: node identifier to the set of its neighbours. *)
Abbreviation graph_t := (gmap Z (gset Z)).

(** The colour assignment: node identifier to a one-character string. *)
Abbreviation colouring_t := (gmap Z string).

(** What [read_interference_graph_from_file] returns: the dictionary, or a
    message (the source returns a [str] in that case). *)
Inductive parsed :=
  | Graph (g : graph_t)
  | Message (m : string).

(** Exceptions that leave a function of the program. *)
Inductive exn :=
  | KeyError (k : Z)
  | OSError (e : string).

Inductive outcome (A : Type) :=
  | Returned (a : A)
  | Raised (e : exn).
Arguments Returned {A} a.
Arguments Raised {A} e.

(** What opening and reading a path yields: the decoded text, a decoding
    failure (a [ValueError]) or another exception whose text is [e]. *)
Inductive file_status :=
  | Readable (text : string)
  | Undecodable
  | Unopenable (e : string).

(** The stages [main] enters, recorded as a ghost trace. *)
Inductive stage := StParse | StPrint | StRank | StColour | StWrite.

(** The environment of a run.  [disk] is what opening and reading a path
    yields; [write_error] is the text of the [OSError] that opening a path
    with mode ['w'] raises, when it raises; [same_file p q] holds of two
    distinct paths that name the same file. *)
Record world := World {
  disk : string -> file_status;
  write_error : string -> option string;
  same_file : string -> string -> bool;
  console : list string;
  trace : list stage
}.

(** ** The messages of the parser *)

Definition msg_file_empty : string := "Error: The file is empty.".
Definition msg_invalid_character : string :=
  "Invalid file content; contains characters other than digits, commas, or end-of-line.".
Definition msg_duplicate_node (node : Z) : string :=
  "Error: Duplicate node definition found for node " +:+ Py.str node +:+ ".".
Definition msg_out_of_order (expected_node node : Z) : string :=
  "Error: Missing node definitions or nodes are not in consecutive order. Expected node "
  +:+ Py.str expected_node +:+ ", found " +:+ Py.str node +:+ ".".
Definition msg_node_out_of_range : string :=
  "Node number out of range. Each node must be between 1 and 50.".
Definition msg_neighbour_out_of_range : string :=
  "Neighbor number out of range. Each neighbor must be between 1 and 50.".
Definition msg_malformed_integer : string :=
  "Invalid file content; unable to convert to integers.".
Definition msg_unexpected (e : string) : string := "Unexpected error: " +:+ e.

(** ** read_interference_graph_from_file *)

Fixpoint string_forallb (p : ascii -> bool) (s : string) : bool :=
  match s with
  | EmptyString => true
  | String c r => p c && string_forallb p r
  end.

(** [all(c.isdigit() or c == ',' or c.isspace() for c in line)] *)
Definition allowed_char (c : ascii) : bool :=
  Py.isdigit_char c || Ascii.eqb c ","%char || Py.isspace c.

Definition out_of_range (n : Z) : bool := (n <? 1) || (50 <? n).

(** [[int(n) for n in tokens if n.isdigit()]]; [None] when an [int] raises. *)
Fixpoint int_of_digit_tokens (tokens : list string) : option (list Z) :=
  match tokens with
  | [] => Some []
  | n :: rest =>
      if Py.isdigit n then
        match Py.int n with
        | None => None
        | Some v =>
            match int_of_digit_tokens rest with
            | None => None
            | Some vs => Some (v :: vs)
            end
        end
      else int_of_digit_tokens rest
  end.

(** One iteration of the [for line in lines] loop: either the message the
    function returns at once, or the node and neighbour list it stores. *)
Definition parse_line (expected_node : Z) (line : string)
  : string + (Z * list Z) :=
  if negb (string_forallb allowed_char line) then inl msg_invalid_character
  else
    let parts := Py.split ","%char (Py.strip line) in
    match Py.int (hd EmptyString parts) with
    | None => inl msg_malformed_integer
    | Some node =>
        if negb (node =? expected_node) then
          if node <? expected_node then inl (msg_duplicate_node node)
          else inl (msg_out_of_order expected_node node)
        else if out_of_range node then inl msg_node_out_of_range
        else
          match int_of_digit_tokens (tl parts) with
          | None => inl msg_malformed_integer
          | Some neighbors =>
              if existsb out_of_range neighbors
              then inl msg_neighbour_out_of_range
              else inr (node, neighbors)
          end
    end.

(** The loop, threading [graph] and [expected_node]. *)
Fixpoint parse_lines (graph : graph_t) (expected_node : Z)
    (lines : list string) : parsed :=
  match lines with
  | [] => Graph graph
  | line :: rest =>
      match parse_line expected_node line with
      | inl m => Message m
      | inr (node, neighbors) =>
          parse_lines (<[node := list_to_set neighbors]> graph)
                      (expected_node + 1) rest
      end
  end.

(** The body of the function once the file has been read. *)
Definition parse_text (text : string) : parsed :=
  match Py.readlines text with
  | [] => Message msg_file_empty
  | lines => parse_lines ∅ 1 lines
  end.

Definition read_interference_graph_from_file (filename : string) (w : world)
  : parsed :=
  match disk w filename with
  | Readable text => parse_text text
  | Undecodable => Message msg_malformed_integer
  | Unopenable e => Message (msg_unexpected e)
  end.

(** ** rank_nodes_by_neighbours *)

(** The sort key [(-x[2], x[0])] and the order of Python tuples on it. *)
Definition rank_key (x : Z * gset Z * nat) : Z * Z :=
  (- Z.of_nat x.2, x.1.1).

Definition pair_le (a b : Z * Z) : Prop :=
  a.1 < b.1 \/ (a.1 = b.1 /\ a.2 <= b.2).

Definition rank_le (x y : Z * gset Z * nat) : Prop :=
  pair_le (rank_key x) (rank_key y).

Global Instance pair_le_dec a b : Decision (pair_le a b).
Proof. unfold pair_le. apply _. Defined.

Global Instance rank_le_dec x y : Decision (rank_le x y).
Proof. unfold rank_le. apply _. Defined.

(** The elements of the two list comprehensions of the function. *)
Definition with_count (x : Z * gset Z) : Z * gset Z * nat :=
  let '(node, neighbours) := x in (node, neighbours, size neighbours).

Definition without_count (x : Z * gset Z * nat) : Z * gset Z :=
  let '(node, neighbours, _) := x in (node, neighbours).

(** The body of the function on an enumeration of the dictionary items. *)
Definition rank_items (items : list (Z * gset Z)) : list (Z * gset Z) :=
  let nodes_info := map with_count items in
  let ranked_nodes_info := merge_sort rank_le nodes_info in
  map without_count ranked_nodes_info.

Definition rank_nodes_by_neighbours (interference_graph : graph_t)
  : list (Z * gset Z) :=
  rank_items (map_to_list interference_graph).

(** ** assign_colours *)

(** [[chr(i) for i in range(ord('A'), ord('Z') + 1)]] *)
Definition colours : list string :=
  map (fun i => String (ascii_of_nat i) EmptyString) (seq 65 26).

(** [{colour_assignment.get(neighbour) for neighbour in neighbours}] *)
Definition assigned_colours (colour_assignment : colouring_t)
    (neighbours : gset Z) : gset (option string) :=
  set_map (fun neighbour => colour_assignment !! neighbour) neighbours.

(** The inner [for colour in colours] loop: the first colour that is not in
    the set, or [None] when the loop ends without [break]. *)
Definition first_unused (used : gset (option string)) : option string :=
  find (fun colour => bool_decide (Some colour ∉ used)) colours.

(** One iteration of the outer loop; [graph[node]] raises [KeyError] on a
    node that is not a key. *)
Definition colour_node (graph : graph_t) (colour_assignment : colouring_t)
    (node : Z) : outcome colouring_t :=
  match graph !! node with
  | None => Raised (KeyError node)
  | Some neighbours =>
      match first_unused (assigned_colours colour_assignment neighbours) with
      | Some colour => Returned (<[node := colour]> colour_assignment)
      | None => Returned colour_assignment
      end
  end.

Fixpoint colour_loop (graph : graph_t) (colour_assignment : colouring_t)
    (ranked : list (Z * gset Z)) : outcome colouring_t :=
  match ranked with
  | [] => Returned colour_assignment
  | (node, _) :: rest =>
      match colour_node graph colour_assignment node with
      | Raised e => Raised e
      | Returned colour_assignment' => colour_loop graph colour_assignment' rest
      end
  end.

Definition assign_colours (graph : graph_t)
    (ranked_nodes_with_neighbours : list (Z * gset Z)) : outcome colouring_t :=
  colour_loop graph ∅ ranked_nodes_with_neighbours.

(** ** write_output_file *)

(** The order of Python on [(int, str)] tuples. *)
Definition item_le (a b : Z * string) : Prop :=
  a.1 < b.1 \/ (a.1 = b.1 /\ String.leb a.2 b.2 = true).

Global Instance item_le_dec a b : Decision (item_le a b).
Proof. unfold item_le. apply _. Defined.

(** [f"{node}{colour}\n"] *)
Definition output_line (item : Z * string) : string :=
  Py.str item.1 +:+ item.2 +:+ nl.

Definition output_text (colour_assignment : colouring_t) : string :=
  String.concat EmptyString
    (map output_line (merge_sort item_le (map_to_list colour_assignment))).

(** [with open(filename, 'w') as f] followed by writes that make up [text]:
    opening raises [OSError] when the environment refuses it, and nothing is
    changed; otherwise the file is created or truncated and holds [text]
    afterwards, under every path that names it. *)
Definition write_text (filename text : string) (w : world) : outcome world :=
  match write_error w filename with
  | Some e => Raised (OSError e)
  | None =>
      Returned
        (World (fun p => if String.eqb p filename || same_file w p filename
                         then Readable text
                         else disk w p)
               (write_error w) (same_file w) (console w) (trace w))
  end.

Definition write_output_file (filename : string)
    (colour_assignment : colouring_t) (w : world) : outcome world :=
  write_text filename (output_text colour_assignment) w.

(** ** main *)

Definition print (m : string) (w : world) : world :=
  World (disk w) (write_error w) (same_file w) (console w ++ [m]) (trace w).

Definition enter (s : stage) (w : world) : world :=
  World (disk w) (write_error w) (same_file w) (console w) (trace w ++ [s]).

Definition main (input_filename output_filename : string) (w : world)
  : outcome world :=
  let w := enter StParse w in
  match read_interference_graph_from_file input_filename w with
  | Message m => Returned (print m (enter StPrint w))
  | Graph graph =>
      let w := enter StRank w in
      let ranked_nodes := rank_nodes_by_neighbours graph in
      let w := enter StColour w in
      match assign_colours graph ranked_nodes with
      | Raised e => Raised e
      | Returned colored_graph =>
          write_output_file output_filename colored_graph (enter StWrite w)
      end
  end.





(** ** Observations on a run *)

(** A world in which only [path] exists, holding [text]. *)
Definition single_file (path text : string) : world :=
  World (fun p => if String.eqb p path then Readable text
                  else Unopenable "No such file or directory")
        (fun _ => None) (fun _ _ => false) [] [].

(** The colour assignment of the pipeline on a text, when parsing succeeds. *)
Definition pipeline (text : string) : option (outcome colouring_t) :=
  match parse_text text with
  | Graph g => Some (assign_colours g (rank_nodes_by_neighbours g))
  | Message _ => None
  end.

Definition colour_of (r : option (outcome colouring_t)) (node : Z)
  : option string :=
  match r with
  | Some (Returned ca) => ca !! node
  | _ => None
  end.

(** Join lines, terminating each with a line feed. *)
Definition unlines (ls : list string) : string :=
  String.concat EmptyString (map (fun l => l +:+ nl) ls).

(** The order in which the ranking lists two entries: more neighbours first,
    the smaller identifier first among entries with as many neighbours. *)
Definition ranked_before (a b : Z * gset Z) : Prop :=
  (size b.2 < size a.2)%nat \/ (size a.2 = size b.2 /\ a.1 < b.1).

(** Every member of a neighbour set is a legal identifier. *)
Definition in_range (s : gset Z) : Prop := forall x, x ∈ s -> 1 <= x <= 50.

(** The count carried by an entry of [nodes_info] is the size of its set. *)
Definition count_ok (x : Z * gset Z * nat) : Prop := x.2 = size x.1.2.

(** Every edge is listed from both of its endpoints. *)
Definition symmetric (g : graph_t) : Prop :=
  forall u v nu, g !! u = Some nu -> v ∈ nu ->
                 exists nv, g !! v = Some nv /\ u ∈ nv.

(** No node lists itself. *)
Definition loop_free (g : graph_t) : Prop :=
  forall u nu, g !! u = Some nu -> u ∉ nu.

(** No coloured node has the colour of a neighbour that it lists. *)
Definition proper (g : graph_t) (ca : colouring_t) : Prop :=
  forall u v nu c, g !! u = Some nu -> v ∈ nu ->
                   ca !! u = Some c -> ca !! v <> Some c.

(** ** Families of inputs *)

(** The integers [1 .. n] in increasing order. *)
Definition upto (n : nat) : list Z := map Z.of_nat (seq 1 n).

Definition join_commas (tokens : list string) : string :=
  String.concat "," tokens.

(** The line of node [i] in the complete graph on [n] nodes: [i] followed by
    every other node. *)
Definition complete_line (n : nat) (i : Z) : string :=
  join_commas (map Py.str (i :: filter (fun j => j <> i) (upto n))).

Definition complete_text (n : nat) : string :=
  unlines (map (complete_line n) (upto n)).

Definition complete_graph (n : nat) : graph_t :=
  list_to_map
    (map (fun i => (i, list_to_set (filter (fun j => j <> i) (upto n))))
         (upto n)).

(** The text of the output file after a run, when the run returns and the
    file is readable. *)
Definition file_after (r : outcome world) (path : string) : option string :=
  match r with
  | Returned w =>
      match disk w path with
      | Readable text => Some text
      | _ => None
      end
  | Raised _ => None
  end.

Definition console_after (r : outcome world) : option (list string) :=
  match r with
  | Returned w => Some (console w)
  | Raised _ => None
  end.

Definition trace_after (r : outcome world) : option (list stage) :=
  match r with
  | Returned w => Some (trace w)
  | Raised _ => None
  end.


(** ** Named inputs *)

(** The assignment in which nodes 1 .. 26 hold the colours A .. Z. *)
Definition first_26_coloured : colouring_t :=
  list_to_map (zip (upto 26) colours).

(** A world that already holds an output file and earlier console lines. *)
Definition used_world (text : string) : world :=
  World (fun p => if String.eqb p "in" then Readable text
                  else Readable "stale")
        (fun _ => None) (fun _ _ => false) ["earlier line"] [StWrite].


(** A run of [main] in a world whose only file is the input. *)
Definition run_on (text : string) : outcome world :=
  main "in" "out" (single_file "in" text).

Definition triangle_text : string := unlines ["1,2,3"; "2,1"; "3,1"].
Definition one_sided_text : string := unlines ["1,2"; "2"].

(** ** Further notions used by the properties *)

(** Every colour held by a node is one of the first [d + 1] letters, [d]
    being the number of neighbours the node lists. *)
Definition greedy_bound (g : graph_t) (ca : colouring_t) : Prop :=
  forall node c, ca !! node = Some c ->
    exists nb, g !! node = Some nb /\ c ∈ take (S (size nb)) colours.

(** A decidable form of [symmetric]. *)
Definition symmetric_check (g : graph_t) : Prop :=
  map_Forall (fun u nu => set_Forall (fun v => u ∈ default ∅ (g !! v)) nu) g.

(** Strictly increasing node identifiers. *)
Definition node_lt (a b : Z * string) : Prop := a.1 < b.1.

(** ** The script entry point *)



(** An ASCII decimal digit. *)
Definition ascii_digit (c : ascii) : bool :=
  (48 <=? Py.ord c) && (Py.ord c <=? 57).

(** A character of a canonical line: a decimal digit or a comma. *)
Definition plain_char (c : ascii) : bool :=
  ascii_digit c || Ascii.eqb c ","%char.

(** The canonical line of a node: its identifier, then its neighbours, in
    decimal, separated by commas. *)
Definition render_line (node : Z) (neighbours : list Z) : string :=
  join_commas (map Py.str (node :: neighbours)).

(** The canonical lines of the nodes [first], [first + 1], ... whose
    neighbour lists are [rows]. *)
Fixpoint render_lines (first : Z) (rows : list (list Z)) : list string :=
  match rows with
  | [] => []
  | neighbours :: rest =>
      render_line first neighbours :: render_lines (first + 1) rest
  end.

(** The canonical text describing nodes 1, 2, ... *)
Definition render (rows : list (list Z)) : string :=
  unlines (render_lines 1 rows).

(** A character of the ASCII range. *)
Definition is_ascii (c : ascii) : bool := Py.ord c <? 128.

(** The one-character string holding the superscript two (U+00B2). *)
Definition superscript_two : string := String (ascii_of_nat 178) EmptyString.

(** A numeral of 4301 digits, one more than [int] accepts. *)
Fixpoint repeat_char (c : ascii) (n : nat) : string :=
  match n with
  | O => EmptyString
  | S n' => String c (repeat_char c n')
  end.

Definition long_numeral : string := repeat_char "1"%char (Z.to_nat 4301).

(** Append a line feed to the last line of a list. *)
Fixpoint terminate_last (ls : list string) : list string :=
  match ls with
  | [] => []
  | [l] => [l +:+ nl]
  | l :: rest => l :: terminate_last rest
  end.

Example int_examples :
  Py.int "007" = Some 7 /\ Py.int " 12 " = Some 12 /\ Py.int EmptyString = None
  /\ Py.int "1 2" = None /\ Py.int "1_0" = Some 10 /\ Py.int "-3" = Some (-3)
  /\ Py.int "_1" = None /\ Py.int "1__0" = None.
Proof. repeat split; reflexivity. Qed.

Example split_examples :
  Py.split "," EmptyString = [EmptyString]
  /\ Py.split "," "a,,b," = ["a"; EmptyString; "b"; EmptyString]
  /\ Py.strip "  1, 2  " = "1, 2".
Proof. repeat split; reflexivity. Qed.

Example readlines_examples :
  Py.readlines EmptyString = [] /\ Py.readlines nl = [nl]
  /\ Py.readlines ("1,2" +:+ nl +:+ "2") = ["1,2" +:+ nl; "2"].
Proof. repeat split; reflexivity. Qed.

(** * Properties *)

(** ** Worked inputs *)

(** C3, as stated, fails: on the three lines [1,2,3], [2,1], [3,1] the
    pipeline does not give node 3 the colour C. *)
Lemma triangle_claim_refuted :
  ~ (colour_of (pipeline triangle_text) 1 = Some "A"
     /\ colour_of (pipeline triangle_text) 2 = Some "B"
     /\ colour_of (pipeline triangle_text) 3 = Some "C").
Proof. vm_compute. intros (_ & _ & H). discriminate H. Qed.

(** C3, amended: on the three lines [1,2,3], [2,1], [3,1] node 1 gets A and
    nodes 2 and 3 both get B, because neither lists the other as a neighbour;
    the output file holds the lines 1A, 2B, 3B. *)
Theorem triangle_colours :
  colour_of (pipeline triangle_text) 1 = Some "A"
  /\ colour_of (pipeline triangle_text) 2 = Some "B"
  /\ colour_of (pipeline triangle_text) 3 = Some "B"
  /\ file_after (run_on triangle_text) "out" = Some (unlines ["1A"; "2B"; "3B"]).
Proof. vm_compute. repeat split; reflexivity. Qed.

(** C1 at the failing input: node 1 lists node 2, node 2 lists nobody; the
    text parses, node 2 is a listed neighbour of node 1, and both nodes
    receive the colour A. *)
Theorem one_sided_edge_shares_colour :
  (exists g, parse_text one_sided_text = Graph g
             /\ g !! 1 = Some {[2]} /\ g !! 2 = Some ∅)
  /\ colour_of (pipeline one_sided_text) 1 = Some "A"
  /\ colour_of (pipeline one_sided_text) 2 = Some "A"
  /\ file_after (run_on one_sided_text) "out" = Some (unlines ["1A"; "2A"]).
Proof.
  split.
  - eexists. split; [reflexivity|]. split; vm_compute; reflexivity.
  - vm_compute. repeat split; reflexivity.
Qed.

(** C4 at the failing input: a first line declaring node 0 is reported with
    the duplicate-node message, not the node-range message, while a neighbour
    51 is reported with the neighbour-range message. *)
Theorem node_zero_reported_as_duplicate :
  parse_text (unlines ["0"]) = Message (msg_duplicate_node 0)
  /\ msg_duplicate_node 0 = "Error: Duplicate node definition found for node 0."
  /\ msg_duplicate_node 0 <> msg_node_out_of_range
  /\ parse_text (unlines ["1,51"]) = Message msg_neighbour_out_of_range
  /\ console_after (run_on (unlines ["0"])) = Some [msg_duplicate_node 0].
Proof. vm_compute. repeat split; try reflexivity. discriminate. Qed.


(** ** Facts about the built-ins *)

Lemma string_forallb_app p s t :
  string_forallb p (s +:+ t) = string_forallb p s && string_forallb p t.
Proof.
  induction s as [|c s IH]; simpl; [reflexivity|].
  rewrite IH. apply andb_assoc.
Qed.

Lemma isspace_allowed c : Py.isspace c = true -> allowed_char c = true.
Proof. intros H. unfold allowed_char. rewrite H. apply orb_true_r. Qed.

Lemma whitespace_allowed w :
  string_forallb Py.isspace w = true -> string_forallb allowed_char w = true.
Proof.
  induction w as [|c w IH]; simpl; [reflexivity|].
  intros [Hc Hw]%andb_true_iff.
  rewrite (isspace_allowed c Hc). auto.
Qed.

Lemma lstrip_whitespace w :
  string_forallb Py.isspace w = true -> Py.lstrip w = EmptyString.
Proof.
  induction w as [|c w IH]; simpl; [reflexivity|].
  intros [Hc Hw]%andb_true_iff. rewrite Hc. auto.
Qed.

Lemma rstrip_whitespace w :
  string_forallb Py.isspace w = true -> Py.rstrip w = EmptyString.
Proof.
  induction w as [|c w IH]; simpl; [reflexivity|].
  intros [Hc Hw]%andb_true_iff. rewrite (IH Hw), Hc. reflexivity.
Qed.

Lemma strip_whitespace w :
  string_forallb Py.isspace w = true -> Py.strip w = EmptyString.
Proof. intros H. unfold Py.strip. rewrite (lstrip_whitespace w H). reflexivity. Qed.

Lemma lstrip_whitespace_app w s :
  string_forallb Py.isspace w = true -> Py.lstrip (w +:+ s) = Py.lstrip s.
Proof.
  induction w as [|c w IH]; simpl; [reflexivity|].
  intros [Hc Hw]%andb_true_iff. rewrite Hc. auto.
Qed.

Lemma rstrip_app_whitespace s w :
  string_forallb Py.isspace w = true -> Py.rstrip (s +:+ w) = Py.rstrip s.
Proof.
  intros Hw. induction s as [|c s IH]; simpl.
  - apply rstrip_whitespace, Hw.
  - rewrite IH. reflexivity.
Qed.

Lemma strip_app_whitespace s w :
  string_forallb Py.isspace w = true -> Py.strip (s +:+ w) = Py.strip s.
Proof.
  intros Hw. unfold Py.strip. induction s as [|c s IH]; simpl.
  - change (EmptyString +:+ w) with w.
    rewrite (lstrip_whitespace w Hw). reflexivity.
  - destruct (Py.isspace c); [exact IH|].
    apply (rstrip_app_whitespace (String c s) w Hw).
Qed.

Lemma strip_surrounding_whitespace w1 s w2 :
  string_forallb Py.isspace w1 = true -> string_forallb Py.isspace w2 = true ->
  Py.strip (w1 +:+ s +:+ w2) = Py.strip s.
Proof.
  intros H1 H2. unfold Py.strip at 1.
  rewrite (lstrip_whitespace_app w1 _ H1).
  apply (strip_app_whitespace s w2 H2).
Qed.

Lemma digit_not_space c : Py.isdigit_char c = true -> Py.isspace c = false.
Proof.
  destruct c as [[] [] [] [] [] [] [] []]; vm_compute; congruence.
Qed.

Lemma all_digits_app s t :
  Py.all_digits (s +:+ t) = Py.all_digits s && Py.all_digits t.
Proof.
  induction s as [|c s IH]; simpl; [reflexivity|].
  rewrite IH. apply andb_assoc.
Qed.

Lemma isdigit_all_digits s : Py.isdigit s = true -> Py.all_digits s = true.
Proof. destruct s; [discriminate|auto]. Qed.

Lemma all_digits_no_leading_space w :
  w <> EmptyString -> string_forallb Py.isspace w = true ->
  Py.all_digits w = false.
Proof.
  destruct w as [|c w]; [congruence|]. simpl.
  intros _ [Hc _]%andb_true_iff.
  destruct (Py.isdigit_char c) eqn:Hd; [|reflexivity].
  apply digit_not_space in Hd. congruence.
Qed.

(** A token that carries white space on either side is not a digit token. *)
Lemma padded_token_not_digit w1 t w2 :
  string_forallb Py.isspace w1 = true -> string_forallb Py.isspace w2 = true ->
  w1 <> EmptyString \/ w2 <> EmptyString ->
  Py.isdigit (w1 +:+ t +:+ w2) = false.
Proof.
  intros H1 H2 Hne.
  destruct (Py.isdigit (w1 +:+ t +:+ w2)) eqn:E; [|reflexivity].
  apply isdigit_all_digits in E.
  rewrite !all_digits_app in E.
  apply andb_true_iff in E as [E1 [_ E2]%andb_true_iff].
  destruct Hne as [Hne|Hne].
  - rewrite (all_digits_no_leading_space w1 Hne H1) in E1. discriminate.
  - rewrite (all_digits_no_leading_space w2 Hne H2) in E2. discriminate.
Qed.

Lemma padded_token_skipped pre w1 t w2 post :
  string_forallb Py.isspace w1 = true -> string_forallb Py.isspace w2 = true ->
  w1 <> EmptyString \/ w2 <> EmptyString ->
  int_of_digit_tokens (pre ++ (w1 +:+ t +:+ w2) :: post)
  = int_of_digit_tokens (pre ++ post).
Proof.
  intros H1 H2 Hne. induction pre as [|p pre IH]; simpl.
  - rewrite (padded_token_not_digit w1 t w2 H1 H2 Hne). reflexivity.
  - rewrite IH. reflexivity.
Qed.

Lemma parse_line_surrounding_whitespace expected_node w1 line w2 :
  string_forallb Py.isspace w1 = true -> string_forallb Py.isspace w2 = true ->
  parse_line expected_node (w1 +:+ line +:+ w2) = parse_line expected_node line.
Proof.
  intros H1 H2. unfold parse_line.
  rewrite !string_forallb_app, (whitespace_allowed w1 H1),
    (whitespace_allowed w2 H2), andb_true_r. simpl.
  rewrite (strip_surrounding_whitespace w1 line w2 H1 H2). reflexivity.
Qed.

(** ** White space in a line *)

(** C5, as stated, fails: [1,2] parses to node 1 with neighbours {2}, but
    with a blank after the comma the neighbour token is dropped and the
    neighbour set is empty. *)
Lemma padded_neighbour_changes_parse :
  parse_line 1 "1,2" = inr (1, [2])
  /\ parse_line 1 "1, 2" = inr (1, [])
  /\ (list_to_set [2] : gset Z) <> list_to_set [].
Proof.
  split; [reflexivity|]. split; [reflexivity|].
  intros H. assert (2 ∈ (list_to_set [2] : gset Z)) as Hin by set_solver.
  rewrite H in Hin. set_solver.
Qed.

(** C5, amended: white space before and after a line never changes what the
    line parses to; a neighbour token that carries white space once the line
    has been stripped and split is not a digit token and is skipped, so
    [1, 2] parses to node 1 with no neighbour whereas [1,2] parses to node 1
    with neighbour 2. *)
Theorem whitespace_in_line :
  (forall expected_node w1 line w2,
      string_forallb Py.isspace w1 = true ->
      string_forallb Py.isspace w2 = true ->
      parse_line expected_node (w1 +:+ line +:+ w2)
      = parse_line expected_node line)
  /\ (forall pre w1 token w2 post,
        string_forallb Py.isspace w1 = true ->
        string_forallb Py.isspace w2 = true ->
        w1 <> EmptyString \/ w2 <> EmptyString ->
        int_of_digit_tokens (pre ++ (w1 +:+ token +:+ w2) :: post)
        = int_of_digit_tokens (pre ++ post))
  /\ parse_line 1 "1, 2" = inr (1, [])
  /\ parse_line 1 "1,2" = inr (1, [2]).
Proof.
  split; [exact parse_line_surrounding_whitespace|].
  split; [exact padded_token_skipped|].
  split; reflexivity.
Qed.

Lemma whitespace_in_line_witness :
  parse_line 1 ("  " +:+ "1,2" +:+ " ") = parse_line 1 "1,2"
  /\ int_of_digit_tokens (["3"] ++ (" " +:+ "2" +:+ EmptyString) :: ["4"])
     = int_of_digit_tokens (["3"] ++ ["4"]).
Proof.
  destruct whitespace_in_line as (Hline & Htoken & _).
  split.
  - apply Hline; reflexivity.
  - apply Htoken; [reflexivity|reflexivity|left; discriminate].
Defined.

(** ** The parser *)

Lemma out_of_range_false n : out_of_range n = false <-> 1 <= n <= 50.
Proof. unfold out_of_range. rewrite orb_false_iff, !Z.ltb_ge. lia. Qed.

(** What an iteration that stores an entry has established. *)
Lemma parse_line_stores expected_node line node neighbors :
  parse_line expected_node line = inr (node, neighbors) ->
  node = expected_node /\ 1 <= node <= 50 /\ in_range (list_to_set neighbors).
Proof.
  unfold parse_line.
  destruct (negb (string_forallb allowed_char line)); [discriminate|].
  destruct (Py.int _) as [n|]; [|discriminate].
  destruct (n =? expected_node) eqn:Heq; simpl;
    [|destruct (n <? expected_node); discriminate].
  destruct (out_of_range n) eqn:Hn; [discriminate|].
  destruct (int_of_digit_tokens _) as [ns|]; [|discriminate].
  destruct (existsb out_of_range ns) eqn:Hns; [discriminate|].
  intros [= <- <-]. apply Z.eqb_eq in Heq. apply out_of_range_false in Hn.
  split; [exact Heq|]. split; [exact Hn|].
  intros x Hx%elem_of_list_to_set.
  apply out_of_range_false.
  destruct (out_of_range x) eqn:Hx'; [|reflexivity].
  rewrite <- Hns. symmetry. apply existsb_exists.
  exists x. split; [apply list_elem_of_In, Hx|exact Hx'].
Qed.

(** The loop invariant: the keys stored by the loop are the consecutive
    integers from [expected_node] on, one per line, none above 50, and every
    stored neighbour set is in range. *)
Lemma parse_lines_invariant lines :
  forall (g0 : graph_t) expected_node (g : graph_t),
    parse_lines g0 expected_node lines = Graph g ->
    (forall k, k ∈ dom g <->
               k ∈ dom g0 \/ expected_node <= k < expected_node + Z.of_nat (length lines))
    /\ (lines = [] \/ expected_node + Z.of_nat (length lines) <= 51)
    /\ (map_Forall (fun _ s => in_range s) g0 ->
        map_Forall (fun _ s => in_range s) g).
Proof.
  induction lines as [|line rest IH]; intros g0 e g; cbn [parse_lines].
  - intros [= <-]. split; [intros k; simpl; intuition lia|].
    split; [left; reflexivity|auto].
  - destruct (parse_line e line) as [m|[node neighbors]] eqn:Hline; [discriminate|].
    apply parse_line_stores in Hline as (-> & Hnode & Hnb).
    intros Hrest. apply IH in Hrest as (Hdom & Hlen & Hrange).
    split; [|split].
    + intros k. rewrite Hdom, dom_insert, elem_of_union, elem_of_singleton.
      rewrite length_cons, Nat2Z.inj_succ. intuition lia.
    + right. rewrite length_cons, Nat2Z.inj_succ.
      destruct Hlen as [->|Hlen]; simpl; lia.
    + intros Hg0. apply Hrange. apply map_Forall_insert_2; assumption.
Qed.

Lemma elem_of_upto n k : k ∈ upto n <-> 1 <= k <= Z.of_nat n.
Proof.
  unfold upto. rewrite list_elem_of_fmap. split.
  - intros (i & -> & Hi%elem_of_seq). lia.
  - intros Hk. exists (Z.to_nat k). split; [lia|]. apply elem_of_seq. lia.
Qed.

(** C9: when the parser returns a graph, its keys are exactly 1..n for n the
    number of lines read (n is at least 1, and at most 50), and every
    neighbour stored in any neighbour set lies in [1, 50]. *)
Theorem parsed_graph_invariant text (g : graph_t) :
  parse_text text = Graph g ->
  let n := length (Py.readlines text) in
  (1 <= n <= 50)%nat
  /\ dom g = list_to_set (upto n)
  /\ forall node neighbours x,
       g !! node = Some neighbours -> x ∈ neighbours -> 1 <= x <= 50.
Proof.
  unfold parse_text. intros H. cbv zeta.
  destruct (Py.readlines text) as [|line rest] eqn:Hlines; [discriminate|].
  apply parse_lines_invariant in H as (Hdom & Hlen & Hrange).
  split; [|split].
  - destruct Hlen as [?|Hlen]; [discriminate|]. simpl in *. lia.
  - apply set_eq. intros k.
    rewrite Hdom, elem_of_list_to_set, elem_of_upto, dom_empty, elem_of_empty.
    lia.
  - intros node neighbours x Hnode Hx.
    exact (Hrange (map_Forall_empty _) node neighbours Hnode x Hx).
Qed.

Lemma parsed_graph_invariant_witness :
  exists g : graph_t,
    parse_text triangle_text = Graph g
    /\ dom g = list_to_set (upto 3)
    /\ forall node neighbours x,
         g !! node = Some neighbours -> x ∈ neighbours -> 1 <= x <= 50.
Proof.
  eexists. split; [reflexivity|].
  refine (let H := parsed_graph_invariant triangle_text _ eq_refl in _).
  destruct H as (_ & Hdom & Hnb). split; [exact Hdom|exact Hnb].
Defined.

(** C10: a file whose only line consists of white space is not reported as
    empty; the parser returns the malformed-integer message, because the
    stripped line splits into one empty token that [int] rejects. *)
Theorem whitespace_line_is_malformed text line :
  Py.readlines text = [line] ->
  string_forallb Py.isspace line = true ->
  parse_text text = Message msg_malformed_integer
  /\ msg_malformed_integer = "Invalid file content; unable to convert to integers."
  /\ msg_malformed_integer <> msg_file_empty.
Proof.
  intros Hlines Hws. split; [|split; [reflexivity|discriminate]].
  unfold parse_text. rewrite Hlines. simpl. unfold parse_line.
  rewrite (whitespace_allowed line Hws), (strip_whitespace line Hws).
  reflexivity.
Qed.

Lemma whitespace_line_is_malformed_witness :
  parse_text nl = Message msg_malformed_integer.
Proof.
  exact (proj1 (whitespace_line_is_malformed nl nl eq_refl eq_refl)).
Defined.

(** The node-range message can only be returned for a node identifier above
    50: an identifier below the expected one is always reported as a
    duplicate first. *)
Lemma node_range_message_only_above_50 expected_node line :
  1 <= expected_node ->
  parse_line expected_node line = inl msg_node_out_of_range ->
  50 < expected_node.
Proof.
  intros He. unfold parse_line.
  destruct (negb (string_forallb allowed_char line)); [discriminate|].
  destruct (Py.int _) as [n|]; [|discriminate].
  destruct (n =? expected_node) eqn:Heq; simpl.
  - apply Z.eqb_eq in Heq. subst n.
    destruct (out_of_range expected_node) eqn:Hn.
    + intros _. unfold out_of_range in Hn.
      apply orb_true_iff in Hn as [Hn|Hn]; apply Z.ltb_lt in Hn; lia.
    + destruct (int_of_digit_tokens _) as [ns|]; [|discriminate].
      destruct (existsb out_of_range ns); discriminate.
  - destruct (n <? expected_node); discriminate.
Qed.

(** ** The ranking *)

Global Instance pair_le_trans : Transitive pair_le.
Proof. intros a b c. unfold pair_le. lia. Qed.

Global Instance pair_le_total : Total pair_le.
Proof. intros a b. unfold pair_le. lia. Qed.

Global Instance rank_le_trans : Transitive rank_le.
Proof. intros a b c. unfold rank_le. apply pair_le_trans. Qed.

Global Instance rank_le_total : Total rank_le.
Proof. intros a b. unfold rank_le. apply pair_le_total. Qed.

Lemma without_with_count items : map without_count (map with_count items) = items.
Proof.
  induction items as [|[node neighbours] items IH]; simpl; [reflexivity|].
  rewrite IH. reflexivity.
Qed.

Lemma rank_items_Permutation items : rank_items items ≡ₚ items.
Proof.
  unfold rank_items. cbv zeta.
  rewrite <- (without_with_count items) at 2.
  apply Permutation_map, merge_sort_Permutation.
Qed.

Lemma with_count_ok items : Forall count_ok (map with_count items).
Proof.
  induction items as [|[node neighbours] items IH]; simpl; constructor; auto.
  reflexivity.
Qed.

Lemma rank_le_ranked_before x y :
  count_ok x -> count_ok y -> x.1.1 <> y.1.1 -> rank_le x y ->
  ranked_before (without_count x) (without_count y).
Proof.
  destruct x as [[n1 s1] c1], y as [[n2 s2] c2].
  unfold count_ok, rank_le, pair_le, rank_key, ranked_before; simpl.
  intros -> -> Hne H. lia.
Qed.

Lemma sorted_without_count l :
  StronglySorted rank_le l -> Forall count_ok l ->
  NoDup (map fst (map without_count l)) ->
  StronglySorted ranked_before (map without_count l).
Proof.
  induction 1 as [|x l Hsorted IH Hx]; simpl; intros Hc Hnd; [constructor|].
  apply Forall_cons_1 in Hc as [Hcx Hcl].
  apply NoDup_cons in Hnd as [Hnotin Hnd].
  constructor; [auto|].
  apply Forall_forall. intros y' Hy'.
  apply list_elem_of_In, in_map_iff in Hy' as (y & <- & Hy).
  apply rank_le_ranked_before.
  - exact Hcx.
  - rewrite Forall_forall in Hcl. apply Hcl, list_elem_of_In, Hy.
  - intros Heq. apply Hnotin. apply list_elem_of_In, in_map_iff.
    exists (without_count y). split.
    + destruct x as [[? ?] ?], y as [[? ?] ?]; simpl in *. congruence.
    + apply in_map, Hy.
  - rewrite Forall_forall in Hx. apply Hx, list_elem_of_In, Hy.
Qed.

Lemma rank_items_sorted items :
  NoDup (map fst items) -> StronglySorted ranked_before (rank_items items).
Proof.
  intros Hnd. unfold rank_items. cbv zeta.
  apply sorted_without_count.
  - apply StronglySorted_merge_sort; apply _.
  - rewrite merge_sort_Permutation. apply with_count_ok.
  - assert (map fst (map without_count (merge_sort rank_le (map with_count items)))
            ≡ₚ map fst items) as ->; [|exact Hnd].
    apply Permutation_map, (rank_items_Permutation items).
Qed.

Lemma NoDup_map_fst_map_to_list (g : graph_t) : NoDup (map fst (map_to_list g)).
Proof. exact (NoDup_fst_map_to_list g). Qed.

Lemma rank_nodes_Permutation (g : graph_t) :
  rank_nodes_by_neighbours g ≡ₚ map_to_list g.
Proof. apply rank_items_Permutation. Qed.

Lemma rank_nodes_entries (g : graph_t) node neighbours :
  (node, neighbours) ∈ rank_nodes_by_neighbours g
  <-> g !! node = Some neighbours.
Proof. rewrite rank_nodes_Permutation. apply elem_of_map_to_list. Qed.

Lemma rank_nodes_dom (g : graph_t) node :
  node ∈ map fst (rank_nodes_by_neighbours g) <-> node ∈ dom g.
Proof.
  rewrite elem_of_dom. split.
  - intros ([n s] & <- & Hin)%list_elem_of_In%in_map_iff.
    exists s. apply rank_nodes_entries, list_elem_of_In, Hin.
  - intros [s Hs]. apply list_elem_of_In, in_map_iff.
    exists (node, s). split; [reflexivity|].
    apply list_elem_of_In, rank_nodes_entries, Hs.
Qed.

(** C7: the ranking holds exactly the entries of the graph, one per node
    (it is a permutation of the items, with pairwise distinct nodes), each
    pairing a node with its own neighbour set, and it is ordered by
    decreasing number of neighbours, then by increasing identifier. *)
Theorem rank_nodes_by_neighbours_spec (g : graph_t) :
  rank_nodes_by_neighbours g ≡ₚ map_to_list g
  /\ length (rank_nodes_by_neighbours g) = size g
  /\ NoDup (map fst (rank_nodes_by_neighbours g))
  /\ (forall node, node ∈ map fst (rank_nodes_by_neighbours g) <-> node ∈ dom g)
  /\ (forall node neighbours,
        (node, neighbours) ∈ rank_nodes_by_neighbours g
        <-> g !! node = Some neighbours)
  /\ StronglySorted ranked_before (rank_nodes_by_neighbours g).
Proof.
  pose proof (rank_nodes_Permutation g) as Hperm.
  split; [exact Hperm|]. split; [|split; [|split; [|split]]].
  - rewrite Hperm. apply length_map_to_list.
  - assert (map fst (rank_nodes_by_neighbours g) ≡ₚ map fst (map_to_list g))
      as ->; [|apply NoDup_map_fst_map_to_list].
    apply Permutation_map, Hperm.
  - apply rank_nodes_dom.
  - apply rank_nodes_entries.
  - apply rank_items_sorted, NoDup_map_fst_map_to_list.
Qed.

Lemma ranked_before_asym a b : ranked_before a b -> ranked_before b a -> False.
Proof. unfold ranked_before. lia. Qed.

(** Any enumeration of the items is ranked alike. *)
Lemma rank_items_enumeration (g : graph_t) items :
  items ≡ₚ map_to_list g -> rank_items items = rank_nodes_by_neighbours g.
Proof.
  intros Hperm.
  assert (NoDup (map fst items)) as Hnd.
  { assert (map fst items ≡ₚ map fst (map_to_list g)) as ->
      by apply Permutation_map, Hperm.
    apply NoDup_map_fst_map_to_list. }
  apply (StronglySorted_unique_strong ranked_before).
  - intros x1 x2 _ _ H12 H21. destruct (ranked_before_asym _ _ H12 H21).
  - apply rank_items_sorted, Hnd.
  - apply rank_items_sorted, NoDup_map_fst_map_to_list.
  - unfold rank_nodes_by_neighbours.
    rewrite !rank_items_Permutation. exact Hperm.
Qed.

(** X14: the ranking does not depend on the order in which the dictionary
    enumerates its items. *)
Lemma rank_enumeration_irrelevant (g : graph_t) items :
  items ≡ₚ map_to_list g -> rank_items items = rank_nodes_by_neighbours g.
Proof. exact (rank_items_enumeration g items). Qed.

(** ** The colourer *)

Lemma first_unused_Some used colour :
  first_unused used = Some colour -> colour ∈ colours /\ Some colour ∉ used.
Proof.
  unfold first_unused. intros [Hin Hb]%find_some.
  split; [apply list_elem_of_In, Hin|]. apply bool_decide_eq_true in Hb. exact Hb.
Qed.

Lemma first_unused_None used :
  Forall (fun colour => Some colour ∈ used) colours -> first_unused used = None.
Proof.
  intros Hall. destruct (first_unused used) as [c|] eqn:E; [|reflexivity].
  apply first_unused_Some in E as [Hin Hnot].
  rewrite Forall_forall in Hall. destruct (Hnot (Hall c Hin)).
Qed.

Lemma elem_of_assigned_colours ca neighbours v :
  v ∈ neighbours -> ca !! v ∈ assigned_colours ca neighbours.
Proof. intros Hv. unfold assigned_colours. apply elem_of_map. eauto. Qed.

(** The outer loop returns whenever every ranked node is a key of the graph. *)
Lemma colour_loop_returns (g : graph_t) ranked :
  Forall (fun node => node ∈ dom g) (map fst ranked) ->
  forall ca, exists ca', colour_loop g ca ranked = Returned ca'.
Proof.
  induction ranked as [|[node nb] ranked IH]; simpl; intros Hall ca; [eauto|].
  apply Forall_cons_1 in Hall as [[s Hs]%elem_of_dom Hall].
  unfold colour_node. rewrite Hs.
  destruct (first_unused _); apply IH, Hall.
Qed.

Lemma assign_colours_returns (g : graph_t) :
  exists ca, assign_colours g (rank_nodes_by_neighbours g) = Returned ca.
Proof.
  apply colour_loop_returns, Forall_forall.
  intros node Hnode. apply rank_nodes_dom, Hnode.
Qed.

Lemma assign_colours_never_raises (g : graph_t) e :
  assign_colours g (rank_nodes_by_neighbours g) <> Raised e.
Proof.
  destruct (assign_colours_returns g) as [ca Hca].
  rewrite Hca. discriminate.
Qed.

Lemma colour_node_proper (g : graph_t) ca node ca' :
  symmetric g -> loop_free g -> proper g ca ->
  colour_node g ca node = Returned ca' -> proper g ca'.
Proof.
  intros Hsym Hloop Hca. unfold colour_node.
  destruct (g !! node) as [nbrs|] eqn:Hnode; [|discriminate].
  destruct (first_unused _) as [c|] eqn:Hc; intros [= <-]; [|exact Hca].
  apply first_unused_Some in Hc as [_ Hfresh].
  intros u v nu c0 Hu Hv Hcu Hcv.
  destruct (decide (u = node)) as [->|Hune].
  - rewrite lookup_insert_eq in Hcu. injection Hcu as <-.
    rewrite Hnode in Hu. injection Hu as <-.
    destruct (decide (v = node)) as [->|Hvne]; [exact (Hloop _ _ Hnode Hv)|].
    rewrite lookup_insert_ne in Hcv by congruence.
    apply Hfresh. rewrite <- Hcv. apply elem_of_assigned_colours, Hv.
  - rewrite lookup_insert_ne in Hcu by congruence.
    destruct (decide (v = node)) as [->|Hvne].
    + rewrite lookup_insert_eq in Hcv. injection Hcv as ->.
      destruct (Hsym _ _ _ Hu Hv) as (nv & Hnv & Hin).
      rewrite Hnode in Hnv. injection Hnv as <-.
      apply Hfresh. rewrite <- Hcu. apply elem_of_assigned_colours, Hin.
    + rewrite lookup_insert_ne in Hcv by congruence.
      exact (Hca u v nu c0 Hu Hv Hcu Hcv).
Qed.

Lemma colour_loop_proper (g : graph_t) ranked :
  symmetric g -> loop_free g ->
  forall ca ca', proper g ca -> colour_loop g ca ranked = Returned ca' ->
                 proper g ca'.
Proof.
  intros Hsym Hloop.
  induction ranked as [|[node nb] ranked IH]; simpl; intros ca ca' Hca.
  - intros [= <-]. exact Hca.
  - destruct (colour_node g ca node) as [ca1|e] eqn:Hstep; [|discriminate].
    apply IH. exact (colour_node_proper g ca node ca1 Hsym Hloop Hca Hstep).
Qed.

(** X13: on a graph whose edges are all listed from both endpoints and that
    has no self-loop, the colourer returns, and no coloured node shares its
    colour with a neighbour it lists. *)
Theorem assign_colours_proper (g : graph_t) :
  symmetric g -> loop_free g ->
  exists ca, assign_colours g (rank_nodes_by_neighbours g) = Returned ca
             /\ proper g ca.
Proof.
  intros Hsym Hloop.
  destruct (assign_colours_returns g) as [ca Hca].
  exists ca. split; [exact Hca|].
  apply (colour_loop_proper g (rank_nodes_by_neighbours g) Hsym Hloop ∅ ca);
    [|exact Hca].
  intros u v nu c _ _ Hu. rewrite lookup_empty in Hu. discriminate.
Qed.

(** A node all of whose 26 colours are taken by neighbours is skipped: the
    iteration returns the assignment unchanged. *)
Lemma colour_node_exhausted (g : graph_t) ca node neighbours :
  g !! node = Some neighbours ->
  Forall (fun colour => Some colour ∈ assigned_colours ca neighbours) colours ->
  colour_node g ca node = Returned ca.
Proof.
  intros Hnode Hall. unfold colour_node.
  rewrite Hnode, (first_unused_None _ Hall). reflexivity.
Qed.

(** C2 at the failing input, the complete graph with 27 nodes.  The text
    parses; the colourer raises nothing and the run prints nothing.  The
    nodes are coloured in the order 1 .. 27 and nodes 1 .. 26 receive
    A .. Z.  Node 27 is a key of the graph whose 26 neighbours hold all 26
    colours: the iteration that reaches it leaves the assignment as it is,
    so node 27 is absent from the returned dictionary, and the output file
    has the 26 lines 1A .. 26Z for a graph of 27 nodes. *)
Theorem exhaustion_not_reported :
  parse_text (complete_text 27) = Graph (complete_graph 27)
  /\ (forall e, assign_colours (complete_graph 27)
                  (rank_nodes_by_neighbours (complete_graph 27)) <> Raised e)
  /\ map fst (rank_nodes_by_neighbours (complete_graph 27)) = upto 27
  /\ assign_colours (complete_graph 27)
       (rank_nodes_by_neighbours (complete_graph 27))
     = Returned first_26_coloured
  /\ complete_graph 27 !! 27 = Some (list_to_set (upto 26))
  /\ colour_node (complete_graph 27) first_26_coloured 27
     = Returned first_26_coloured
  /\ first_26_coloured !! 27 = None
  /\ colour_of (pipeline (complete_text 27)) 27 = None
  /\ colour_of (pipeline (complete_text 27)) 26 = Some "Z"
  /\ console_after (run_on (complete_text 27)) = Some []
  /\ file_after (run_on (complete_text 27)) "out"
     = Some (unlines (zip_with String.append (map Py.str (upto 26)) colours)).
Proof.
  split; [vm_compute; reflexivity|]. split.
  - intros e. apply assign_colours_never_raises.
  - vm_compute. repeat split; reflexivity.
Qed.

(** ** The orchestrator *)

Lemma read_ignores_console i w s :
  read_interference_graph_from_file i (enter s w)
  = read_interference_graph_from_file i w.
Proof. reflexivity. Qed.

(** C6: when the parser returns a message, [main] prints exactly that
    message and returns; the file system is left as it was, and the run goes
    through the parsing and printing stages only.  An empty input file is such
    a case, with the empty-file message. *)
Theorem parse_failure_stops_run :
  (forall i o w m,
      read_interference_graph_from_file i w = Message m ->
      exists w', main i o w = Returned w'
                 /\ disk w' = disk w
                 /\ console w' = console w ++ [m]
                 /\ trace w' = trace w ++ [StParse; StPrint])
  /\ (forall i w,
        disk w i = Readable EmptyString ->
        read_interference_graph_from_file i w = Message msg_file_empty).
Proof.
  split.
  - intros i o w m Hread. unfold main. cbv zeta.
    rewrite read_ignores_console, Hread.
    eexists. split; [reflexivity|]. simpl.
    rewrite <- app_assoc. auto.
  - intros i w Hdisk. unfold read_interference_graph_from_file.
    rewrite Hdisk. reflexivity.
Qed.

Lemma parse_failure_stops_run_witness :
  exists w', main "in" "out" (used_world EmptyString) = Returned w'
             /\ disk w' = disk (used_world EmptyString)
             /\ console w' = ["earlier line"; msg_file_empty]
             /\ trace w' = [StWrite; StParse; StPrint].
Proof.
  destruct parse_failure_stops_run as [Hstop Hempty].
  exact (Hstop "in" "out" (used_world EmptyString) msg_file_empty
           (Hempty "in" (used_world EmptyString) eq_refl)).
Defined.

(** ** More on the colourer *)

Lemma find_prefix {A} (p : A -> bool) l x :
  find p l = Some x ->
  exists l1 l2, l = l1 ++ x :: l2 /\ p x = true /\ Forall (fun y => p y = false) l1.
Proof.
  induction l as [|a l IH]; simpl; [discriminate|].
  destruct (p a) eqn:E.
  - intros [= ->]. exists [], l. auto.
  - intros (l1 & l2 & -> & Hx & Hl1)%IH.
    exists (a :: l1), l2. split; [reflexivity|]. split; [exact Hx|].
    constructor; assumption.
Qed.

Lemma colours_NoDup : NoDup colours.
Proof.
  assert (bool_decide (NoDup colours) = true) as H by (vm_compute; reflexivity).
  exact (bool_decide_eq_true_1 _ H).
Qed.

Lemma first_unused_position used c :
  first_unused used = Some c ->
  exists before after,
    colours = before ++ c :: after /\ (Some c ∉ used)
    /\ Forall (fun c' => Some c' ∈ used) before.
Proof.
  unfold first_unused. intros (l1 & l2 & Heq & Hc & Hl1)%find_prefix.
  exists l1, l2. split; [exact Heq|]. split.
  - apply bool_decide_eq_true in Hc. exact Hc.
  - eapply Forall_impl; [exact Hl1|]. intros c' Hc'. simpl in Hc'.
    apply bool_decide_eq_false in Hc'. apply dec_stable, Hc'.
Qed.

Lemma first_unused_None_inv used :
  first_unused used = None -> Forall (fun c => Some c ∈ used) colours.
Proof.
  unfold first_unused. intros H. apply Forall_forall. intros c Hc.
  apply list_elem_of_In in Hc.
  pose proof (find_none _ _ H c Hc) as Hf. simpl in Hf.
  apply bool_decide_eq_false in Hf. apply dec_stable, Hf.
Qed.

Lemma assigned_colours_inv ca (neighbours : gset Z) c :
  Some c ∈ assigned_colours ca neighbours ->
  exists v, v ∈ neighbours /\ ca !! v = Some c.
Proof.
  unfold assigned_colours. intros (v & Hv & Hin)%elem_of_map. eauto.
Qed.

(** Distinct colours taken by neighbours need as many neighbours. *)
Lemma used_colours_bound ca (neighbours : gset Z) (cs : list string) :
  NoDup cs -> Forall (fun c => Some c ∈ assigned_colours ca neighbours) cs ->
  (length cs <= size neighbours)%nat.
Proof.
  intros Hnd Hall.
  assert (Some <$> cs ⊆+ (fun nb => ca !! nb) <$> elements neighbours) as Hsub.
  { apply NoDup_submseteq; [apply NoDup_fmap_2; [apply _|exact Hnd]|].
    intros x (c & -> & Hc)%list_elem_of_fmap.
    rewrite Forall_forall in Hall.
    destruct (assigned_colours_inv _ _ _ (Hall c Hc)) as (v & Hv & Hcv).
    apply list_elem_of_fmap. exists v. split; [auto|]. apply elem_of_elements, Hv. }
  apply submseteq_length in Hsub. rewrite !length_fmap in Hsub. exact Hsub.
Qed.

(** Distinct colours in use need as many coloured nodes. *)
Lemma coloured_bound (ca : colouring_t) (cs : list string) :
  NoDup cs -> Forall (fun c => exists v, ca !! v = Some c) cs ->
  (length cs <= size ca)%nat.
Proof.
  intros Hnd Hall.
  assert (cs ⊆+ (map_to_list ca).*2) as Hsub.
  { apply NoDup_submseteq; [exact Hnd|].
    intros c Hc. rewrite Forall_forall in Hall.
    destruct (Hall c Hc) as [v Hv].
    apply list_elem_of_fmap. exists (v, c). split; [reflexivity|].
    apply elem_of_map_to_list, Hv. }
  apply submseteq_length in Hsub.
  rewrite length_fmap, length_map_to_list in Hsub. exact Hsub.
Qed.

Lemma colours_length : length colours = 26%nat.
Proof. reflexivity. Qed.

(** What one iteration does, case by case. *)
Lemma colour_node_cases (g : graph_t) ca node ca' :
  colour_node g ca node = Returned ca' ->
  exists nb, g !! node = Some nb
    /\ ((exists c before after,
            ca' = <[node := c]> ca /\ colours = before ++ c :: after
            /\ (Some c ∉ assigned_colours ca nb)
            /\ (length before <= size nb)%nat)
        \/ (ca' = ca /\ (26 <= size nb)%nat /\ (26 <= size ca)%nat)).
Proof.
  unfold colour_node. destruct (g !! node) as [nb|]; [|discriminate].
  intros H. exists nb. split; [reflexivity|]. revert H.
  destruct (first_unused _) as [c|] eqn:Hc; intros [= <-].
  - left. apply first_unused_position in Hc as (before & after & Heq & Hfresh & Hused).
    exists c, before, after. split; [reflexivity|]. split; [exact Heq|].
    split; [exact Hfresh|].
    apply (used_colours_bound ca nb before); [|exact Hused].
    pose proof colours_NoDup as Hnd. rewrite Heq in Hnd.
    apply NoDup_app in Hnd as [Hnd _]. exact Hnd.
  - right. apply first_unused_None_inv in Hc. split; [reflexivity|].
    rewrite <- colours_length. split.
    + apply (used_colours_bound ca nb colours colours_NoDup Hc).
    + apply (coloured_bound ca colours colours_NoDup).
      eapply Forall_impl; [exact Hc|]. intros c Hin. simpl in Hin.
      destruct (assigned_colours_inv _ _ _ Hin) as (v & _ & Hv). eauto.
Qed.

Lemma colour_node_greedy (g : graph_t) ca node ca' :
  greedy_bound g ca -> colour_node g ca node = Returned ca' ->
  greedy_bound g ca'.
Proof.
  intros Hinv Hstep.
  apply colour_node_cases in Hstep as (nb & Hnode & [Hcol|(-> & _)]);
    [|exact Hinv].
  destruct Hcol as (c & before & after & -> & Heq & _ & Hlen).
  intros n c' Hn. destruct (decide (n = node)) as [->|Hne].
  - rewrite lookup_insert_eq in Hn. injection Hn as <-.
    exists nb. split; [exact Hnode|].
    apply elem_of_take. exists (length before). split; [|lia].
    rewrite Heq. apply list_lookup_middle. reflexivity.
  - rewrite lookup_insert_ne in Hn by congruence. exact (Hinv n c' Hn).
Qed.

Lemma colour_loop_greedy (g : graph_t) ranked :
  forall ca ca', greedy_bound g ca -> colour_loop g ca ranked = Returned ca' ->
                 greedy_bound g ca'.
Proof.
  induction ranked as [|[node nb] ranked IH]; simpl; intros ca ca' Hca.
  - intros [= <-]. exact Hca.
  - destruct (colour_node g ca node) as [ca1|e] eqn:Hstep; [|discriminate].
    apply IH. exact (colour_node_greedy g ca node ca1 Hca Hstep).
Qed.

Lemma greedy_bound_empty (g : graph_t) : greedy_bound g ∅.
Proof. intros node c H. rewrite lookup_empty in H. discriminate. Qed.

(** A coloured node stays coloured. *)
Lemma colour_node_keeps (g : graph_t) ca node ca' n :
  colour_node g ca node = Returned ca' -> is_Some (ca !! n) -> is_Some (ca' !! n).
Proof.
  intros Hstep Hn.
  apply colour_node_cases in Hstep as (nb & _ & [Hcol|(-> & _)]); [|exact Hn].
  destruct Hcol as (c & _ & _ & -> & _).
  rewrite lookup_insert_is_Some. destruct (decide (node = n)); auto.
Qed.

Lemma colour_loop_keeps (g : graph_t) ranked n :
  forall ca ca', colour_loop g ca ranked = Returned ca' ->
                 is_Some (ca !! n) -> is_Some (ca' !! n).
Proof.
  induction ranked as [|[node nb] ranked IH]; simpl; intros ca ca'.
  - intros [= <-]. auto.
  - destruct (colour_node g ca node) as [ca1|e] eqn:Hstep; [|discriminate].
    intros Hloop Hn. apply (IH ca1 ca' Hloop).
    exact (colour_node_keeps g ca node ca1 n Hstep Hn).
Qed.

(** A ranked node with fewer than 26 neighbours is coloured by the loop. *)
Lemma colour_loop_small_degree (g : graph_t) ranked n nb :
  g !! n = Some nb -> (size nb < 26)%nat -> n ∈ map fst ranked ->
  forall ca ca', colour_loop g ca ranked = Returned ca' -> is_Some (ca' !! n).
Proof.
  intros Hn Hsize.
  induction ranked as [|[node nb'] ranked IH]; simpl; intros Hin ca ca'.
  - apply elem_of_nil in Hin. destruct Hin.
  - destruct (colour_node g ca node) as [ca1|e] eqn:Hstep; [|discriminate].
    intros Hloop. apply elem_of_cons in Hin as [<-|Hin].
    + apply (colour_loop_keeps g ranked n ca1 ca' Hloop).
      apply colour_node_cases in Hstep as (nb1 & Hnode & [Hcol|(_ & Hbig & _)]).
      * destruct Hcol as (c & _ & _ & -> & _). rewrite lookup_insert_eq. eauto.
      * rewrite Hn in Hnode. injection Hnode as <-. lia.
    + exact (IH Hin ca1 ca' Hloop).
Qed.

(** While fewer than 26 nodes are coloured, every ranked node is coloured. *)
Lemma colour_loop_small_graph (g : graph_t) ranked :
  forall ca ca', (size ca + length ranked <= 26)%nat ->
    colour_loop g ca ranked = Returned ca' ->
    forall n, n ∈ map fst ranked -> is_Some (ca' !! n).
Proof.
  induction ranked as [|[node nb] ranked IH]; simpl; intros ca ca' Hsize.
  - intros _ n Hin. apply elem_of_nil in Hin. destruct Hin.
  - destruct (colour_node g ca node) as [ca1|e] eqn:Hstep; [|discriminate].
    intros Hloop n Hin.
    pose proof Hstep as Hcases.
    apply colour_node_cases in Hcases as (nb1 & Hnode & [Hcol|(_ & _ & Hbig)]);
      [|lia].
    destruct Hcol as (c & _ & _ & Heq & _).
    assert (size ca1 <= S (size ca))%nat as Hgrow.
    { rewrite Heq. destruct (ca !! node) as [c0|] eqn:Hold.
      - rewrite (map_size_insert_Some node c ca); [lia|eauto].
      - rewrite (map_size_insert_None node c ca Hold). lia. }
    apply elem_of_cons in Hin as [->|Hin].
    + apply (colour_loop_keeps g ranked node ca1 ca' Hloop).
      rewrite Heq, lookup_insert_eq. eauto.
    + apply (IH ca1 ca'); [lia|exact Hloop|exact Hin].
Qed.

Lemma symmetric_check_sound (g : graph_t) : symmetric_check g -> symmetric g.
Proof.
  intros Hchk u v nu Hu Hv.
  specialize (Hchk u nu Hu v Hv). simpl in Hchk.
  destruct (g !! v) as [nv|]; simpl in Hchk; [eauto|].
  apply elem_of_empty in Hchk. destruct Hchk.
Qed.

Lemma assign_colours_keys (g : graph_t) ranked ca :
  assign_colours g ranked = Returned ca -> dom ca ⊆ dom g.
Proof.
  intros Hca n [c Hc]%elem_of_dom.
  destruct (colour_loop_greedy g ranked ∅ ca (greedy_bound_empty g) Hca n c Hc)
    as (nb & Hnb & _).
  apply elem_of_dom. eauto.
Qed.

(** X1: whatever list of nodes is handed to the colourer, every colour it
    assigns goes to a key of the graph and is one of the first d + 1 letters
    of the alphabet, where d is the number of neighbours that node lists. *)
Theorem assign_colours_greedy_bound (g : graph_t) ranked ca :
  assign_colours g ranked = Returned ca ->
  forall node c, ca !! node = Some c ->
    exists nb, g !! node = Some nb /\ c ∈ take (S (size nb)) colours.
Proof.
  intros Hrun.
  exact (colour_loop_greedy g ranked ∅ ca (greedy_bound_empty g) Hrun).
Qed.

Lemma assign_colours_greedy_bound_witness :
  exists nb, complete_graph 3 !! 2 = Some nb /\ "B" ∈ take (S (size nb)) colours.
Proof.
  apply (assign_colours_greedy_bound (complete_graph 3)
           (rank_nodes_by_neighbours (complete_graph 3))
           (list_to_map (zip (upto 3) colours))).
  - vm_compute. reflexivity.
  - vm_compute. reflexivity.
Defined.

(** X2: on the ranking of the graph the colourer returns an assignment whose
    keys are nodes of the graph, and every node that lists fewer than 26
    neighbours has a colour in it. *)
Theorem small_degree_coloured (g : graph_t) :
  exists ca, assign_colours g (rank_nodes_by_neighbours g) = Returned ca
    /\ dom ca ⊆ dom g
    /\ forall node nb, g !! node = Some nb -> (size nb < 26)%nat ->
                       is_Some (ca !! node).
Proof.
  destruct (assign_colours_returns g) as [ca Hca].
  exists ca. split; [exact Hca|]. split.
  - exact (assign_colours_keys g _ ca Hca).
  - intros node nb Hnode Hsize.
    apply (colour_loop_small_degree g (rank_nodes_by_neighbours g) node nb
             Hnode Hsize) with (ca := ∅); [|exact Hca].
    apply rank_nodes_dom, elem_of_dom. eauto.
Qed.

Lemma small_degree_coloured_witness :
  exists ca, assign_colours (complete_graph 5)
               (rank_nodes_by_neighbours (complete_graph 5)) = Returned ca
    /\ is_Some (ca !! 3).
Proof.
  destruct (small_degree_coloured (complete_graph 5)) as (ca & Hca & _ & Hsmall).
  exists ca. split; [exact Hca|].
  apply (Hsmall 3 (list_to_set (filter (fun j => j <> 3) (upto 5)))).
  - vm_compute. reflexivity.
  - vm_compute. lia.
Defined.

(** X3: a graph with at most 26 nodes is coloured completely: the assignment
    returned on its ranking has exactly the nodes of the graph as keys. *)
Theorem small_graph_fully_coloured (g : graph_t) :
  (size g <= 26)%nat ->
  exists ca, assign_colours g (rank_nodes_by_neighbours g) = Returned ca
             /\ dom ca = dom g.
Proof.
  intros Hsize.
  destruct (assign_colours_returns g) as [ca Hca].
  exists ca. split; [exact Hca|].
  apply set_eq. intros n. split; [apply (assign_colours_keys g _ ca Hca)|].
  intros Hn. apply elem_of_dom.
  apply (colour_loop_small_graph g (rank_nodes_by_neighbours g) ∅ ca).
  - rewrite map_size_empty.
    assert (length (rank_nodes_by_neighbours g) = size g) as ->; [|lia].
    rewrite rank_nodes_Permutation. apply length_map_to_list.
  - exact Hca.
  - apply rank_nodes_dom, Hn.
Qed.

Lemma small_graph_fully_coloured_witness :
  exists ca, assign_colours (complete_graph 3)
               (rank_nodes_by_neighbours (complete_graph 3)) = Returned ca
             /\ dom ca = dom (complete_graph 3).
Proof.
  apply (small_graph_fully_coloured (complete_graph 3)).
  vm_compute. lia.
Defined.

Lemma colour_loop_missing_key (g : graph_t) before node nb after :
  Forall (fun n => n ∈ dom g) (map fst before) -> node ∉ dom g ->
  forall ca, colour_loop g ca (before ++ (node, nb) :: after)
             = Raised (KeyError node).
Proof.
  intros Hbefore Hnode.
  induction before as [|[n s] before IH]; simpl; intros ca.
  - unfold colour_node. apply not_elem_of_dom in Hnode. rewrite Hnode. reflexivity.
  - simpl in Hbefore. apply Forall_cons_1 in Hbefore as [[x Hx]%elem_of_dom Hbefore].
    unfold colour_node. rewrite Hx.
    destruct (first_unused _); apply IH, Hbefore.
Qed.

(** X4: the colourer returns when every node of the list it is given is a
    key of the graph, and raises [KeyError] for the first node of the list
    that is not. *)
Theorem assign_colours_missing_key (g : graph_t) :
  (forall ranked,
      Forall (fun n => n ∈ dom g) (map fst ranked) ->
      exists ca, assign_colours g ranked = Returned ca)
  /\ (forall before node nb after,
        Forall (fun n => n ∈ dom g) (map fst before) -> node ∉ dom g ->
        assign_colours g (before ++ (node, nb) :: after)
        = Raised (KeyError node)).
Proof.
  split.
  - intros ranked Hall. exact (colour_loop_returns g ranked Hall ∅).
  - intros before node nb after Hbefore Hnode.
    exact (colour_loop_missing_key g before node nb after Hbefore Hnode ∅).
Qed.

Lemma assign_colours_missing_key_witness :
  (exists ca, assign_colours (complete_graph 3) [(2, ∅); (1, ∅)] = Returned ca)
  /\ assign_colours (complete_graph 3) ([(2, ∅)] ++ (7, ∅) :: [(9, ∅)])
     = Raised (KeyError 7).
Proof.
  destruct (assign_colours_missing_key (complete_graph 3)) as [Hok Hbad].
  assert (forall n, bool_decide (n ∈ dom (complete_graph 3)) = true ->
                    n ∈ dom (complete_graph 3)) as Hin
    by (intros n; apply bool_decide_eq_true_1).
  split.
  - apply Hok. apply Forall_cons. split; [apply Hin; reflexivity|].
    apply Forall_cons. split; [apply Hin; reflexivity|]. apply Forall_nil_2.
  - apply Hbad.
    + apply Forall_cons. split; [apply Hin; reflexivity|]. apply Forall_nil_2.
    + intros H7. apply (bool_decide_eq_true_2 _) in H7. discriminate H7.
Defined.

Lemma assign_colours_proper_witness :
  exists ca, assign_colours (complete_graph 4)
               (rank_nodes_by_neighbours (complete_graph 4)) = Returned ca
             /\ proper (complete_graph 4) ca.
Proof.
  apply (assign_colours_proper (complete_graph 4)).
  - apply symmetric_check_sound.
    assert (bool_decide (symmetric_check (complete_graph 4)) = true) as H
      by (vm_compute; reflexivity).
    exact (bool_decide_eq_true_1 _ H).
  - assert (bool_decide (map_Forall (fun u (nu : gset Z) => u ∉ nu)
                           (complete_graph 4)) = true) as H
      by (vm_compute; reflexivity).
    exact (bool_decide_eq_true_1 _ H).
Defined.

Lemma rank_enumeration_irrelevant_witness :
  rank_items (reverse (map_to_list (complete_graph 3)))
  = rank_nodes_by_neighbours (complete_graph 3).
Proof.
  apply rank_enumeration_irrelevant. apply reverse_Permutation.
Defined.

(** ** The writer *)

Global Instance item_le_total : Total item_le.
Proof.
  intros [n1 c1] [n2 c2]. unfold item_le; simpl.
  destruct (Z.lt_trichotomy n1 n2) as [Hlt|[Heq|Hgt]].
  - left. left. exact Hlt.
  - destruct (String.leb_total c1 c2) as [H|H].
    + left. right. split; [exact Heq|exact H].
    + right. right. split; [symmetry; exact Heq|exact H].
  - right. left. exact Hgt.
Qed.

Lemma sorted_items_increasing (l : list (Z * string)) :
  Sorted item_le l -> NoDup (l.*1) -> StronglySorted node_lt l.
Proof.
  induction 1 as [|x l Hsorted IH Hhd]; simpl; intros Hnd; [constructor|].
  apply NoDup_cons in Hnd as [Hnotin Hnd].
  specialize (IH Hnd). constructor; [exact IH|].
  destruct Hhd as [|y l Hxy]; [constructor|].
  assert (node_lt x y) as Hlt.
  { unfold node_lt. destruct Hxy as [Hlt|[Heq _]]; [exact Hlt|].
    exfalso. apply Hnotin. rewrite fmap_cons, Heq. apply elem_of_cons. left. reflexivity. }
  constructor; [exact Hlt|].
  apply StronglySorted_inv in IH as [_ Hall].
  eapply Forall_impl; [exact Hall|]. unfold node_lt in *. intros z Hz. lia.
Qed.

(** X5: the output text is the concatenation of one line per coloured node,
    the lines being in strictly increasing order of node identifier. *)
Theorem output_text_sorted (ca : colouring_t) :
  exists items,
    output_text ca = String.concat EmptyString (map output_line items)
    /\ items ≡ₚ map_to_list ca
    /\ length items = size ca
    /\ StronglySorted node_lt items.
Proof.
  exists (merge_sort item_le (map_to_list ca)).
  split; [reflexivity|].
  pose proof (merge_sort_Permutation item_le (map_to_list ca)) as Hperm.
  split; [exact Hperm|]. split.
  - rewrite Hperm. apply length_map_to_list.
  - apply sorted_items_increasing.
    + apply Sorted_merge_sort. apply _.
    + rewrite Hperm. apply NoDup_fst_map_to_list.
Qed.

(** ** The orchestrator and the script *)














(** ** More on the parser *)

Lemma parse_lines_app_Graph lines1 :
  forall (g : graph_t) e (g1 : graph_t) lines2,
    parse_lines g e lines1 = Graph g1 ->
    parse_lines g e (lines1 ++ lines2)
    = parse_lines g1 (e + Z.of_nat (length lines1)) lines2.
Proof.
  induction lines1 as [|line rest IH]; intros g e g1 lines2; cbn [parse_lines app].
  - intros [= <-]. simpl. rewrite Z.add_0_r. reflexivity.
  - destruct (parse_line e line) as [m|[node neighbors]]; [discriminate|].
    intros H. rewrite (IH _ _ g1 lines2 H), length_cons, Nat2Z.inj_succ.
    f_equal. lia.
Qed.

Lemma parse_lines_app_Message lines1 :
  forall (g : graph_t) e m lines2,
    parse_lines g e lines1 = Message m ->
    parse_lines g e (lines1 ++ lines2) = Message m.
Proof.
  induction lines1 as [|line rest IH]; intros g e m lines2; cbn [parse_lines app].
  - discriminate.
  - destruct (parse_line e line) as [m'|[node neighbors]]; [auto|].
    apply IH.
Qed.

(** X7: the parsing loop composes over concatenation: a message returned on
    a prefix of the lines is the result whatever follows, and after a prefix
    that parses the loop goes on from the graph built so far with the next
    expected node. *)
Theorem parse_lines_app (g : graph_t) e lines1 lines2 :
  parse_lines g e (lines1 ++ lines2)
  = match parse_lines g e lines1 with
    | Message m => Message m
    | Graph g1 => parse_lines g1 (e + Z.of_nat (length lines1)) lines2
    end.
Proof.
  destruct (parse_lines g e lines1) as [g1|m] eqn:H.
  - apply parse_lines_app_Graph, H.
  - apply parse_lines_app_Message, H.
Qed.

Lemma parse_line_whitespace e line :
  string_forallb Py.isspace line = true ->
  parse_line e line = inl msg_malformed_integer.
Proof.
  intros Hws. unfold parse_line.
  rewrite (whitespace_allowed line Hws), (strip_whitespace line Hws).
  reflexivity.
Qed.

(** X8: a line made of white space only, reached after lines that parse, is
    reported with the malformed-integer message, whatever follows it. *)
Theorem blank_line_is_malformed (g : graph_t) lines1 line lines2 :
  parse_lines ∅ 1 lines1 = Graph g ->
  string_forallb Py.isspace line = true ->
  parse_lines ∅ 1 (lines1 ++ (line :: lines2)) = Message msg_malformed_integer.
Proof.
  intros Hprefix Hws.
  rewrite (parse_lines_app_Graph lines1 ∅ 1 g _ Hprefix).
  cbn [parse_lines]. rewrite (parse_line_whitespace _ line Hws). reflexivity.
Qed.

Lemma blank_line_is_malformed_witness :
  parse_lines ∅ 1 (["1,2" +:+ nl; "2,1" +:+ nl] ++ (nl :: ["3" +:+ nl]))
  = Message msg_malformed_integer.
Proof.
  apply (blank_line_is_malformed
           (<[2 := list_to_set [1]]> (<[1 := list_to_set [2]]> ∅))).
  - reflexivity.
  - reflexivity.
Defined.

Lemma parse_lines_node_range lines :
  forall (g : graph_t) e,
    1 <= e -> parse_lines g e lines = Message msg_node_out_of_range ->
    52 <= e + Z.of_nat (length lines).
Proof.
  induction lines as [|line rest IH]; intros g e He; cbn [parse_lines].
  - discriminate.
  - rewrite length_cons, Nat2Z.inj_succ.
    destruct (parse_line e line) as [m|[node neighbors]] eqn:Hline.
    + intros [= ->].
      pose proof (node_range_message_only_above_50 e line He Hline). lia.
    + intros H. apply IH in H; lia.
Qed.

(** X9: the node-range message is never returned for a file of fewer than 51
    lines. *)
Theorem node_range_needs_51_lines text :
  parse_text text = Message msg_node_out_of_range ->
  (51 <= length (Py.readlines text))%nat.
Proof.
  unfold parse_text.
  destruct (Py.readlines text) as [|line rest] eqn:Hlines; [discriminate|].
  intros H. apply parse_lines_node_range in H; [|lia]. lia.
Qed.

Lemma keepends_nil s : Py.keepends s = [] -> s = EmptyString.
Proof.
  destruct s as [|c r]; [reflexivity|]. simpl.
  destruct (Ascii.eqb c Py.LF); [discriminate|].
  destruct (Py.keepends r); discriminate.
Qed.

Lemma universal_newlines_empty s :
  Py.universal_newlines s = EmptyString -> s = EmptyString.
Proof.
  destruct s as [|c r]; [reflexivity|]. simpl.
  destruct (Ascii.eqb c Py.CR); [|discriminate].
  destruct r as [|c2 r2]; [discriminate|].
  destruct (Ascii.eqb c2 Py.LF); discriminate.
Qed.

Lemma readlines_nil text : Py.readlines text = [] <-> text = EmptyString.
Proof.
  split; [|intros ->; reflexivity].
  intros H. apply universal_newlines_empty, keepends_nil, H.
Qed.

Lemma parse_line_not_file_empty e line :
  parse_line e line <> inl msg_file_empty.
Proof.
  unfold parse_line.
  destruct (negb (string_forallb allowed_char line)); [discriminate|].
  destruct (Py.int _) as [n|]; [|discriminate].
  destruct (negb (n =? e)).
  - destruct (n <? e); unfold msg_duplicate_node, msg_out_of_order;
      simpl; discriminate.
  - destruct (out_of_range n); [discriminate|].
    destruct (int_of_digit_tokens _) as [ns|]; [|discriminate].
    destruct (existsb out_of_range ns); discriminate.
Qed.

Lemma parse_lines_not_file_empty lines :
  forall (g : graph_t) e, parse_lines g e lines <> Message msg_file_empty.
Proof.
  induction lines as [|line rest IH]; intros g e; cbn [parse_lines].
  - discriminate.
  - destruct (parse_line e line) as [m|[node neighbors]] eqn:Hline; [|apply IH].
    intros [= ->]. exact (parse_line_not_file_empty e line Hline).
Qed.

(** X10: the empty-file message is returned for the empty text and for no
    other text. *)
Theorem file_empty_iff text :
  parse_text text = Message msg_file_empty <-> text = EmptyString.
Proof.
  split; [|intros ->; reflexivity].
  unfold parse_text.
  destruct (Py.readlines text) as [|line rest] eqn:Hlines.
  - intros _. apply readlines_nil, Hlines.
  - intros H. destruct (parse_lines_not_file_empty _ _ _ H).
Qed.

(** ** Decimal numerals *)

Lemma pretty_N_char_decimal d :
  (d < 10)%N -> Py.decimal (pretty_N_char d) = Some (Z.of_N d).
Proof.
  intros Hd.
  assert (d = 0 \/ d = 1 \/ d = 2 \/ d = 3 \/ d = 4 \/ d = 5 \/ d = 6
          \/ d = 7 \/ d = 8 \/ d = 9)%N as H by lia.
  repeat (destruct H as [->|H]; [reflexivity|]). subst d. reflexivity.
Qed.

Lemma decimal_ascii_digit c d : Py.decimal c = Some d -> ascii_digit c = true.
Proof.
  unfold Py.decimal, ascii_digit.
  destruct ((48 <=? Py.ord c) && (Py.ord c <=? 57)); [reflexivity|discriminate].
Qed.

(** Reading back the digits that [pretty_N_go] puts in front of [s]. *)
Lemma int_digits_pretty_N_go x :
  (0 < x)%N ->
  exists k, 0 <= k /\ forall acc prev s,
    Py.int_digits acc prev (pretty_N_go x s)
    = Py.int_digits (acc * 10 ^ k + Z.of_N x) Py.AfterDigit s.
Proof.
  induction (N.lt_wf_0 x) as [x _ IH]. intros Hx.
  assert (x `mod` 10 < 10)%N as Hmod by (apply N.mod_lt; lia).
  pose proof (N.div_mod x 10 ltac:(lia)) as Hdm.
  destruct (decide (x < 10)%N) as [Hsmall|Hbig].
  - exists 1. split; [lia|]. intros acc prev s.
    rewrite pretty_N_go_step by exact Hx.
    rewrite (N.div_small x 10 Hsmall), pretty_N_go_0.
    cbn [Py.int_digits]. rewrite (pretty_N_char_decimal _ Hmod).
    rewrite (N.mod_small x 10 Hsmall). f_equal. lia.
  - assert (0 < x `div` 10)%N as Hdiv by (apply N.div_str_pos; lia).
    destruct (IH (x `div` 10)%N) as (k & Hk & Hread);
      [apply N.div_lt; lia|exact Hdiv|].
    exists (k + 1). split; [lia|]. intros acc prev s.
    rewrite pretty_N_go_step by exact Hx.
    rewrite Hread. cbn [Py.int_digits].
    rewrite (pretty_N_char_decimal _ Hmod). f_equal.
    rewrite Z.pow_add_r, Z.pow_1_r by lia.
    rewrite N2Z.inj_div, N2Z.inj_mod in *.
    assert (Z.of_N x = 10 * (Z.of_N x `div` 10) + Z.of_N x `mod` 10) as Hz
      by (apply Z.div_mod; lia).
    change (Z.of_N 10) with 10. lia.
Qed.

Lemma digits_pretty_N_go x :
  forall s, string_forallb ascii_digit s = true ->
            string_forallb ascii_digit (pretty_N_go x s) = true.
Proof.
  induction (N.lt_wf_0 x) as [x _ IH]. intros s Hs.
  destruct (decide (0 < x)%N) as [Hx|Hx].
  - rewrite pretty_N_go_step by exact Hx.
    apply IH; [apply N.div_lt; lia|].
    simpl. rewrite Hs, andb_true_r.
    apply (decimal_ascii_digit _ (Z.of_N (x `mod` 10))).
    apply pretty_N_char_decimal, N.mod_lt. lia.
  - assert (x = 0%N) as -> by lia. rewrite pretty_N_go_0. exact Hs.
Qed.

(** The decimal numeral of a natural number: digits only, read back by the
    digit loop of [int]. *)
Lemma str_numeral n :
  0 <= n ->
  string_forallb ascii_digit (Py.str n) = true
  /\ Py.int_digits 0 Py.AtStart (Py.str n) = Some n.
Proof.
  intros Hn. unfold Py.str, pretty, pretty_Z.
  destruct n as [|p|p]; [split; reflexivity| |lia].
  unfold pretty, pretty_positive, pretty, pretty_N.
  destruct (decide (N.pos p = 0%N)) as [Hp|_]; [discriminate|].
  split.
  - apply digits_pretty_N_go. reflexivity.
  - destruct (int_digits_pretty_N_go (N.pos p)) as (k & _ & Hread); [lia|].
    rewrite Hread. reflexivity.
Qed.

Lemma ascii_digit_facts c :
  ascii_digit c = true ->
  Py.int_space c = false /\ Ascii.eqb c "+"%char = false
  /\ Ascii.eqb c "-"%char = false /\ Py.isdigit_char c = true
  /\ Ascii.eqb c ","%char = false.
Proof.
  destruct c as [[] [] [] [] [] [] [] []]; vm_compute; intros H;
    repeat split; congruence.
Qed.

Lemma plain_char_facts c :
  plain_char c = true ->
  allowed_char c = true /\ Py.isspace c = false
  /\ Ascii.eqb c Py.LF = false /\ Ascii.eqb c Py.CR = false.
Proof.
  destruct c as [[] [] [] [] [] [] [] []]; vm_compute; intros H;
    repeat split; congruence.
Qed.

Lemma digit_plain c : ascii_digit c = true -> plain_char c = true.
Proof. unfold plain_char. intros ->. reflexivity. Qed.

Lemma digits_plain s :
  string_forallb ascii_digit s = true -> string_forallb plain_char s = true.
Proof.
  induction s as [|c s IH]; simpl; [reflexivity|].
  intros [Hc Hs]%andb_true_iff. rewrite (digit_plain c Hc). auto.
Qed.

Lemma int_rstrip_digits s :
  string_forallb ascii_digit s = true -> Py.int_rstrip s = s.
Proof.
  induction s as [|c s IH]; simpl; [reflexivity|].
  intros [Hc Hs]%andb_true_iff. rewrite (IH Hs).
  destruct (ascii_digit_facts c Hc) as (Hsp & _).
  destruct s; [rewrite Hsp|]; reflexivity.
Qed.

Lemma count_digits_nonneg s : 0 <= Py.count_digits s.
Proof.
  induction s as [|c s IH]; simpl; [lia|]. destruct (Py.decimal c); lia.
Qed.

Lemma count_digits_cons_digit d s :
  (d < 10)%N ->
  Py.count_digits (String (pretty_N_char d) s) = 1 + Py.count_digits s.
Proof.
  intros Hd. cbn [Py.count_digits].
  rewrite (pretty_N_char_decimal d Hd). reflexivity.
Qed.

(** A number below [10 ^ k] is written with at most [k] digits. *)
Lemma count_digits_pretty_N_go_le (k : nat) :
  forall x s, (0 < x)%N -> Z.of_N x < 10 ^ Z.of_nat k ->
    Py.count_digits (pretty_N_go x s) <= Py.count_digits s + Z.of_nat k.
Proof.
  induction k as [|k IH]; intros x s Hx Hlt.
  - simpl in Hlt. lia.
  - rewrite pretty_N_go_step by exact Hx.
    assert (x `mod` 10 < 10)%N as Hmod by (apply N.mod_lt; lia).
    destruct (decide (0 < x `div` 10)%N) as [Hdiv|Hdiv].
    + etrans; [apply IH; [exact Hdiv|]|].
      * rewrite N2Z.inj_div. change (Z.of_N 10) with 10.
        apply Z.div_lt_upper_bound; [lia|].
        rewrite Nat2Z.inj_succ in Hlt.
        rewrite Z.pow_succ_r in Hlt by apply Nat2Z.is_nonneg. exact Hlt.
      * rewrite (count_digits_cons_digit _ s Hmod). lia.
    + assert (x `div` 10 = 0)%N as -> by (destruct (N.eq_0_gt_0_cases (x `div` 10)) as [H0|H0]; [exact H0|destruct (Hdiv H0)]).
      rewrite pretty_N_go_0, (count_digits_cons_digit _ s Hmod). lia.
Qed.

Lemma count_digits_pretty_N_go_mono x :
  forall s, Py.count_digits s <= Py.count_digits (pretty_N_go x s).
Proof.
  induction (N.lt_wf_0 x) as [x _ IH]. intros s.
  destruct (N.eq_0_gt_0_cases x) as [->|Hx].
  - rewrite pretty_N_go_0. lia.
  - rewrite pretty_N_go_step by exact Hx.
    etrans; [|apply IH; apply N.div_lt; [exact Hx|reflexivity]].
    cbn [Py.count_digits]. destruct (Py.decimal _); lia.
Qed.

(** A number from [10 ^ k] on is written with more than [k] digits. *)
Lemma count_digits_pretty_N_go_gt (k : nat) :
  forall x s, 10 ^ Z.of_nat k <= Z.of_N x ->
    Py.count_digits s + Z.of_nat k < Py.count_digits (pretty_N_go x s).
Proof.
  induction k as [|k IH]; intros x s Hge.
  - change (10 ^ Z.of_nat 0) with 1 in Hge.
    assert (0 < x)%N as Hx by lia.
    assert (x `mod` 10 < 10)%N as Hmod by (apply N.mod_lt; discriminate).
    rewrite pretty_N_go_step by exact Hx.
    pose proof (count_digits_pretty_N_go_mono (x `div` 10)
                  (String (pretty_N_char (x `mod` 10)) s)) as Hmono.
    rewrite (count_digits_cons_digit _ s Hmod) in Hmono.
    change (Z.of_nat 0) with 0. lia.
  - assert (0 < 10 ^ Z.of_nat k) as Hpos by (apply Z.pow_pos_nonneg; lia).
    rewrite Nat2Z.inj_succ in Hge.
    rewrite Z.pow_succ_r in Hge by apply Nat2Z.is_nonneg.
    assert (0 < x)%N as Hx by lia.
    assert (x `mod` 10 < 10)%N as Hmod by (apply N.mod_lt; discriminate).
    rewrite pretty_N_go_step by exact Hx.
    assert (10 ^ Z.of_nat k <= Z.of_N (x `div` 10)) as Hdiv.
    { rewrite N2Z.inj_div. change (Z.of_N 10) with 10.
      apply Z.div_le_lower_bound; lia. }
    pose proof (IH (x `div` 10)%N (String (pretty_N_char (x `mod` 10)) s) Hdiv)
      as Hk.
    rewrite (count_digits_cons_digit _ s Hmod) in Hk.
    rewrite Nat2Z.inj_succ. lia.
Qed.

(** The digit count of the numeral of a natural number, against the cap. *)
Lemma count_digits_str_le n :
  0 <= n < 10 ^ Py.max_str_digits ->
  Py.count_digits (Py.str n) <= Py.max_str_digits.
Proof.
  intros [Hn Hlt]. unfold Py.str, pretty, pretty_Z.
  destruct n as [|p|p]; [unfold Py.max_str_digits; simpl; lia| |lia].
  unfold pretty, pretty_positive, pretty, pretty_N.
  destruct (decide (N.pos p = 0%N)) as [Hp|_]; [discriminate|].
  pose proof (count_digits_pretty_N_go_le (Z.to_nat Py.max_str_digits)
                (N.pos p) EmptyString) as H.
  rewrite Z2Nat.id in H by (unfold Py.max_str_digits; lia).
  change (Py.count_digits EmptyString) with 0 in H.
  rewrite Z.add_0_l in H. apply H; [reflexivity|exact Hlt].
Qed.

Lemma count_digits_str_gt n :
  10 ^ Py.max_str_digits <= n ->
  Py.max_str_digits < Py.count_digits (Py.str n).
Proof.
  intros Hge.
  assert (0 < 10 ^ Py.max_str_digits) as Hpos
    by (apply Z.pow_pos_nonneg; unfold Py.max_str_digits; lia).
  unfold Py.str, pretty, pretty_Z.
  destruct n as [|p|p]; [lia| |lia].
  unfold pretty, pretty_positive, pretty, pretty_N.
  destruct (decide (N.pos p = 0%N)) as [Hp|_]; [discriminate|].
  pose proof (count_digits_pretty_N_go_gt (Z.to_nat Py.max_str_digits)
                (N.pos p) EmptyString) as H.
  rewrite Z2Nat.id in H by (unfold Py.max_str_digits; lia).
  change (Py.count_digits EmptyString) with 0 in H.
  rewrite Z.add_0_l in H. apply H. exact Hge.
Qed.

(** [int] on the decimal numeral of a natural number: the number back when
    the numeral is within the cap, [ValueError] when it is not. *)
Lemma int_str_cases n :
  0 <= n ->
  Py.int (Py.str n)
  = if n <? 10 ^ Py.max_str_digits then Some n else None.
Proof.
  intros Hn. destruct (str_numeral n Hn) as [Hdigits Hread].
  unfold Py.int.
  destruct (Py.str n) as [|c r] eqn:Hstr; [discriminate|].
  pose proof Hdigits as Hd. simpl in Hd. apply andb_true_iff in Hd as [Hc Hr].
  destruct (ascii_digit_facts c Hc) as (Hsp & Hplus & Hminus & _).
  cbn [Py.int_lstrip]. rewrite Hsp.
  rewrite (int_rstrip_digits _ Hdigits), Hplus, Hminus.
  unfold Py.int_body. rewrite Hread, <- Hstr.
  destruct (n <? 10 ^ Py.max_str_digits) eqn:Hcmp.
  - apply Z.ltb_lt in Hcmp.
    pose proof (count_digits_str_le n (conj Hn Hcmp)) as Hle.
    apply Z.ltb_ge in Hle. rewrite Hle. reflexivity.
  - apply Z.ltb_ge in Hcmp.
    pose proof (count_digits_str_gt n Hcmp) as Hgt.
    apply Z.ltb_lt in Hgt. rewrite Hgt. reflexivity.
Qed.

Lemma int_str n : 0 <= n < 10 ^ Py.max_str_digits -> Py.int (Py.str n) = Some n.
Proof.
  intros [Hn Hlt]. rewrite (int_str_cases n Hn).
  apply Z.ltb_lt in Hlt. rewrite Hlt. reflexivity.
Qed.

Lemma small_within_cap n : 0 <= n <= 50 -> 0 <= n < 10 ^ Py.max_str_digits.
Proof.
  intros Hn. split; [lia|].
  apply (Z.lt_le_trans _ (10 ^ 2)); [change (10 ^ 2) with 100; lia|].
  apply Z.pow_le_mono_r; unfold Py.max_str_digits; lia.
Qed.

Lemma all_digits_ascii s :
  string_forallb ascii_digit s = true -> Py.all_digits s = true.
Proof.
  induction s as [|c s IH]; simpl; [reflexivity|].
  intros [Hc Hs]%andb_true_iff.
  destruct (ascii_digit_facts c Hc) as (_ & _ & _ & Hd & _).
  rewrite Hd. auto.
Qed.

Lemma isdigit_str n : 0 <= n -> Py.isdigit (Py.str n) = true.
Proof.
  intros Hn. destruct (str_numeral n Hn) as [Hdigits Hread].
  destruct (Py.str n) as [|c r] eqn:Hstr; [discriminate|].
  apply all_digits_ascii, Hdigits.
Qed.

Lemma int_of_digit_tokens_str ns :
  Forall (fun n => 0 <= n < 10 ^ Py.max_str_digits) ns ->
  int_of_digit_tokens (map Py.str ns) = Some ns.
Proof.
  induction 1 as [|n ns Hn Hns IH]; simpl; [reflexivity|].
  rewrite (isdigit_str n (proj1 Hn)), (int_str n Hn), IH. reflexivity.
Qed.

(** ** Splitting and stripping canonical lines *)

Lemma split_digits t :
  string_forallb ascii_digit t = true -> Py.split ","%char t = [t].
Proof.
  induction t as [|c t IH]; simpl; [reflexivity|].
  intros [Hc Ht]%andb_true_iff.
  destruct (ascii_digit_facts c Hc) as (_ & _ & _ & _ & Hcomma).
  rewrite Hcomma, (IH Ht). reflexivity.
Qed.

Lemma split_digits_comma t rest :
  string_forallb ascii_digit t = true ->
  Py.split ","%char (t +:+ "," +:+ rest) = t :: Py.split ","%char rest.
Proof.
  induction t as [|c t IH]; simpl; [reflexivity|].
  intros [Hc Ht]%andb_true_iff.
  destruct (ascii_digit_facts c Hc) as (_ & _ & _ & _ & Hcomma).
  rewrite Hcomma, (IH Ht). reflexivity.
Qed.

Lemma split_join_commas t ts :
  Forall (fun t => string_forallb ascii_digit t = true) (t :: ts) ->
  Py.split ","%char (join_commas (t :: ts)) = t :: ts.
Proof.
  revert t. induction ts as [|t2 ts IH]; intros t Hall.
  - apply Forall_cons_1 in Hall as [Ht _]. apply split_digits, Ht.
  - apply Forall_cons_1 in Hall as [Ht Hall].
    unfold join_commas in *.
    change (String.concat "," (t :: t2 :: ts))
      with (t +:+ "," +:+ String.concat "," (t2 :: ts)).
    rewrite (split_digits_comma t _ Ht), (IH t2 Hall). reflexivity.
Qed.

Lemma join_commas_plain ts :
  Forall (fun t => string_forallb ascii_digit t = true) ts ->
  string_forallb plain_char (join_commas ts) = true.
Proof.
  induction 1 as [|t ts Ht Hts IH]; [reflexivity|].
  unfold join_commas in *. destruct ts as [|t2 ts].
  - apply digits_plain, Ht.
  - change (String.concat "," (t :: t2 :: ts))
      with (t +:+ "," +:+ String.concat "," (t2 :: ts)).
    rewrite !string_forallb_app, (digits_plain t Ht), IH. reflexivity.
Qed.

Lemma plain_allowed s :
  string_forallb plain_char s = true -> string_forallb allowed_char s = true.
Proof.
  induction s as [|c s IH]; simpl; [reflexivity|].
  intros [Hc Hs]%andb_true_iff.
  destruct (plain_char_facts c Hc) as (Ha & _). rewrite Ha. auto.
Qed.

Lemma rstrip_plain s :
  string_forallb plain_char s = true -> Py.rstrip s = s.
Proof.
  induction s as [|c s IH]; simpl; [reflexivity|].
  intros [Hc Hs]%andb_true_iff. rewrite (IH Hs).
  destruct (plain_char_facts c Hc) as (_ & Hsp & _).
  destruct s; [rewrite Hsp|]; reflexivity.
Qed.

Lemma strip_plain_line s :
  string_forallb plain_char s = true -> Py.strip (s +:+ nl) = s.
Proof.
  intros Hs. rewrite (strip_app_whitespace s nl eq_refl).
  unfold Py.strip. destruct s as [|c s]; [reflexivity|].
  pose proof Hs as Hs'. simpl in Hs'. apply andb_true_iff in Hs' as [Hc _].
  destruct (plain_char_facts c Hc) as (_ & Hsp & _).
  cbn [Py.lstrip]. rewrite Hsp. apply rstrip_plain, Hs.
Qed.

Lemma str_digits_all ns :
  Forall (fun n => 0 <= n) ns ->
  Forall (fun t => string_forallb ascii_digit t = true) (map Py.str ns).
Proof.
  induction 1 as [|n ns Hn Hns IH]; simpl; constructor; [|exact IH].
  apply (str_numeral n Hn).
Qed.

(** What one iteration of the loop does on a canonical line: the tokens
    it converts are the numerals of the node and of the neighbours. *)
Lemma parse_line_render_tokens e node neighbours :
  0 <= node -> Forall (fun n => 0 <= n) neighbours ->
  parse_line e (render_line node neighbours +:+ nl)
  = match Py.int (Py.str node) with
    | None => inl msg_malformed_integer
    | Some n =>
        if negb (n =? e) then
          if n <? e then inl (msg_duplicate_node n)
          else inl (msg_out_of_order e n)
        else if out_of_range n then inl msg_node_out_of_range
        else
          match int_of_digit_tokens (map Py.str neighbours) with
          | None => inl msg_malformed_integer
          | Some ns =>
              if existsb out_of_range ns then inl msg_neighbour_out_of_range
              else inr (n, ns)
          end
    end.
Proof.
  intros Hnode Hnb.
  change (render_line node neighbours)
    with (join_commas (Py.str node :: map Py.str neighbours)).
  assert (Forall (fun t => string_forallb ascii_digit t = true)
            (Py.str node :: map Py.str neighbours)) as Htokens.
  { constructor; [apply (str_numeral node Hnode)|apply str_digits_all, Hnb]. }
  pose proof (join_commas_plain _ Htokens) as Hplain.
  unfold parse_line.
  rewrite string_forallb_app, (plain_allowed _ Hplain).
  change (string_forallb allowed_char nl) with true. cbn [negb andb].
  rewrite (strip_plain_line _ Hplain), (split_join_commas _ _ Htokens).
  reflexivity.
Qed.

Lemma within_cap_nonneg (ns : list Z) :
  Forall (fun n => 0 <= n < 10 ^ Py.max_str_digits) ns ->
  Forall (fun n => 0 <= n) ns.
Proof. intros H. eapply Forall_impl; [exact H|]. intros n Hn. simpl in Hn. lia. Qed.

Lemma parse_line_render e node neighbours :
  0 <= node < 10 ^ Py.max_str_digits ->
  Forall (fun n => 0 <= n < 10 ^ Py.max_str_digits) neighbours ->
  parse_line e (render_line node neighbours +:+ nl)
  = if negb (node =? e) then
      if node <? e then inl (msg_duplicate_node node)
      else inl (msg_out_of_order e node)
    else if out_of_range node then inl msg_node_out_of_range
    else if existsb out_of_range neighbours
         then inl msg_neighbour_out_of_range
         else inr (node, neighbours).
Proof.
  intros Hnode Hnb.
  rewrite (parse_line_render_tokens e node neighbours (proj1 Hnode)
             (within_cap_nonneg _ Hnb)).
  rewrite (int_str node Hnode), (int_of_digit_tokens_str _ Hnb).
  reflexivity.
Qed.

(** ** Reading canonical texts *)

Lemma append_empty_r s : s +:+ EmptyString = s.
Proof.
  induction s as [|c s IH]; [reflexivity|].
  change (String c s +:+ EmptyString) with (String c (s +:+ EmptyString)).
  rewrite IH. reflexivity.
Qed.

Lemma append_assoc s t u : (s +:+ t) +:+ u = s +:+ t +:+ u.
Proof.
  induction s as [|c s IH]; [reflexivity|].
  change (String c ((s +:+ t) +:+ u) = String c (s +:+ t +:+ u)).
  rewrite IH. reflexivity.
Qed.

Lemma unlines_cons l ls : unlines (l :: ls) = l +:+ nl +:+ unlines ls.
Proof.
  unfold unlines. destruct ls as [|l2 ls].
  - change (String.concat EmptyString (map (fun l => l +:+ nl) [l]))
      with (l +:+ nl).
    change (String.concat EmptyString (map (fun l => l +:+ nl) []))
      with EmptyString.
    rewrite append_empty_r. reflexivity.
  - change (String.concat EmptyString
              (map (fun l => l +:+ nl) (l :: l2 :: ls)))
      with ((l +:+ nl) +:+ EmptyString
            +:+ String.concat EmptyString (map (fun l => l +:+ nl) (l2 :: ls))).
    rewrite append_assoc. reflexivity.
Qed.

Lemma universal_newlines_plain s rest :
  string_forallb plain_char s = true ->
  Py.universal_newlines (s +:+ nl +:+ rest)
  = s +:+ nl +:+ Py.universal_newlines rest.
Proof.
  induction s as [|c s IH]; simpl; [reflexivity|].
  intros [Hc Hs]%andb_true_iff.
  destruct (plain_char_facts c Hc) as (_ & _ & _ & Hcr).
  rewrite Hcr, (IH Hs). reflexivity.
Qed.

Lemma keepends_plain s rest :
  string_forallb plain_char s = true ->
  Py.keepends (s +:+ nl +:+ rest) = (s +:+ nl) :: Py.keepends rest.
Proof.
  induction s as [|c s IH]; simpl; [reflexivity|].
  intros [Hc Hs]%andb_true_iff.
  destruct (plain_char_facts c Hc) as (_ & _ & Hlf & _).
  rewrite Hlf, (IH Hs). reflexivity.
Qed.

Lemma readlines_unlines ls :
  Forall (fun l => string_forallb plain_char l = true) ls ->
  Py.readlines (unlines ls) = map (fun l => l +:+ nl) ls.
Proof.
  unfold Py.readlines.
  induction 1 as [|l ls Hl Hls IH]; [reflexivity|].
  rewrite unlines_cons, (universal_newlines_plain l _ Hl),
    (keepends_plain l _ Hl), IH. reflexivity.
Qed.

Lemma render_lines_plain rows :
  forall first, 0 <= first ->
    Forall (Forall (fun n => 0 <= n)) rows ->
    Forall (fun l => string_forallb plain_char l = true)
           (render_lines first rows).
Proof.
  induction rows as [|nbrs rows IH]; intros first Hfirst Hrows; simpl;
    [constructor|].
  apply Forall_cons_1 in Hrows as [Hnb Hrows].
  constructor; [|apply IH; [lia|exact Hrows]].
  apply join_commas_plain, str_digits_all. constructor; assumption.
Qed.

Lemma in_range_nonneg (ns : list Z) :
  Forall (fun n => 1 <= n <= 50) ns -> Forall (fun n => 0 <= n) ns.
Proof. intros H. eapply Forall_impl; [exact H|]. intros n Hn. simpl in Hn. lia. Qed.

Lemma in_range_within_cap (ns : list Z) :
  Forall (fun n => 1 <= n <= 50) ns ->
  Forall (fun n => 0 <= n < 10 ^ Py.max_str_digits) ns.
Proof.
  intros H. eapply Forall_impl; [exact H|]. intros n Hn. simpl in Hn.
  apply small_within_cap. lia.
Qed.

Lemma in_range_existsb (ns : list Z) :
  Forall (fun n => 1 <= n <= 50) ns -> existsb out_of_range ns = false.
Proof.
  induction 1 as [|n ns Hn Hns IH]; simpl; [reflexivity|].
  rewrite IH, orb_false_r. apply out_of_range_false, Hn.
Qed.

(** The loop on canonical lines for consecutive nodes. *)
Lemma parse_lines_render rows :
  forall first (g0 : graph_t),
    1 <= first -> first + Z.of_nat (length rows) <= 51 ->
    Forall (Forall (fun n => 1 <= n <= 50)) rows ->
    exists g : graph_t,
      parse_lines g0 first (map (fun l => l +:+ nl) (render_lines first rows))
      = Graph g
      /\ (forall i nbrs, rows !! i = Some nbrs ->
                         g !! (first + Z.of_nat i) = Some (list_to_set nbrs))
      /\ (forall k, k < first -> g !! k = g0 !! k).
Proof.
  induction rows as [|nbrs rows IH]; intros first g0 Hfirst Hlen Hrows.
  - exists g0. split; [reflexivity|]. split; [|auto].
    intros i nbrs Hi. rewrite lookup_nil in Hi. discriminate.
  - apply Forall_cons_1 in Hrows as [Hnb Hrows].
    rewrite length_cons, Nat2Z.inj_succ in Hlen.
    cbn [render_lines map parse_lines].
    rewrite (parse_line_render first first nbrs) by
      (try apply in_range_within_cap; try apply small_within_cap;
       auto with lia).
    rewrite Z.eqb_refl. cbn [negb].
    assert (out_of_range first = false) as -> by (apply out_of_range_false; lia).
    rewrite (in_range_existsb nbrs Hnb).
    destruct (IH (first + 1) (<[first := list_to_set nbrs]> g0))
      as (g & Hg & Hrows' & Hold); [lia|lia|exact Hrows|].
    exists g. split; [exact Hg|]. split.
    + intros [|i] nbrs' Hi.
      * injection Hi as <-. rewrite Z.add_0_r, Hold by lia.
        apply lookup_insert_eq.
      * rewrite <- (Hrows' i nbrs' Hi). f_equal. lia.
    + intros k Hk. rewrite Hold by lia. apply lookup_insert_ne. lia.
Qed.

(** X11: the canonical text of a graph description parses back to it.  For
    between 1 and 50 rows of neighbour lists with every neighbour in [1, 50],
    the text whose i-th line is the node number i followed by its neighbours
    is accepted, the keys of the graph are 1 .. number of rows, and node i
    maps to the set of the neighbours of row i. *)
Theorem parse_render rows :
  rows <> [] -> (length rows <= 50)%nat ->
  Forall (Forall (fun n => 1 <= n <= 50)) rows ->
  exists g : graph_t,
    parse_text (render rows) = Graph g
    /\ dom g = list_to_set (upto (length rows))
    /\ forall i nbrs, rows !! i = Some nbrs ->
                      g !! (Z.of_nat i + 1) = Some (list_to_set nbrs).
Proof.
  intros Hne Hlen Hrows.
  destruct (parse_lines_render rows 1 ∅) as (g & Hg & Hlook & _);
    [lia|lia|exact Hrows|].
  assert (Py.readlines (render rows)
          = map (fun l => l +:+ nl) (render_lines 1 rows)) as Hlines.
  { apply readlines_unlines, render_lines_plain; [lia|].
    eapply Forall_impl; [exact Hrows|]. intros ns. apply in_range_nonneg. }
  exists g. split; [|split].
  - unfold parse_text. rewrite Hlines.
    destruct rows as [|nbrs rows]; [congruence|]. exact Hg.
  - apply parse_lines_invariant in Hg as (Hdom & _).
    apply set_eq. intros k.
    rewrite Hdom, elem_of_list_to_set, elem_of_upto, dom_empty, elem_of_empty.
    assert (length (map (fun l => l +:+ nl) (render_lines 1 rows))
            = length rows) as ->.
    { rewrite length_map. clear. generalize 1.
      induction rows as [|r rows IH]; intros e; simpl; [reflexivity|].
      rewrite IH. reflexivity. }
    lia.
  - intros i nbrs Hi. rewrite Z.add_comm. exact (Hlook i nbrs Hi).
Qed.

Lemma parse_render_witness :
  exists g : graph_t,
    parse_text (render [[2; 3]; [1]; [1; 1]]) = Graph g
    /\ dom g = list_to_set (upto 3)
    /\ forall i nbrs, [[2; 3]; [1]; [1; 1]] !! i = Some nbrs ->
                      g !! (Z.of_nat i + 1) = Some (list_to_set nbrs).
Proof.
  apply (parse_render [[2; 3]; [1]; [1; 1]]).
  - discriminate.
  - simpl. lia.
  - repeat constructor; lia.
Defined.

(** X12: after canonical lines for nodes 1 .. k, a canonical line that
    declares a node at most k is reported as a duplicate of that node; one
    that declares a node above k + 1 whose numeral has at most 4300 digits
    is reported as out of order, naming k + 1 as expected and the node found;
    one whose numeral is longer is reported with the malformed-integer
    message, because [int] refuses it.  The neighbours on that line and the
    lines that follow play no part. *)
Theorem node_order_errors rows node nbrs rest :
  (length rows <= 50)%nat ->
  Forall (Forall (fun n => 1 <= n <= 50)) rows ->
  0 <= node -> Forall (fun n => 0 <= n) nbrs ->
  let lines := map (fun l => l +:+ nl) (render_lines 1 rows)
               ++ ((render_line node nbrs +:+ nl) :: rest) in
  (node <= Z.of_nat (length rows) ->
   parse_lines ∅ 1 lines = Message (msg_duplicate_node node))
  /\ (Z.of_nat (length rows) + 1 < node < 10 ^ Py.max_str_digits ->
      parse_lines ∅ 1 lines
      = Message (msg_out_of_order (Z.of_nat (length rows) + 1) node))
  /\ (10 ^ Py.max_str_digits <= node ->
      parse_lines ∅ 1 lines = Message msg_malformed_integer).
Proof.
  intros Hlen Hrows Hnode Hnb lines. subst lines.
  destruct (parse_lines_render rows 1 ∅) as (g & Hg & _); [lia|lia|exact Hrows|].
  rewrite (parse_lines_app_Graph _ ∅ 1 g _ Hg).
  assert (length (map (fun l => l +:+ nl) (render_lines 1 rows))
          = length rows) as ->.
  { rewrite length_map. clear. generalize 1.
    induction rows as [|r rows IH]; intros e; simpl; [reflexivity|].
    rewrite IH. reflexivity. }
  cbn [parse_lines].
  rewrite (parse_line_render_tokens _ node nbrs Hnode Hnb),
    (int_str_cases node Hnode).
  split; [|split]; intros Hcmp.
  - assert ((node <? 10 ^ Py.max_str_digits) = true) as ->.
    { apply Z.ltb_lt. apply small_within_cap. lia. }
    assert ((node =? 1 + Z.of_nat (length rows)) = false) as ->
      by (apply Z.eqb_neq; lia).
    assert ((node <? 1 + Z.of_nat (length rows)) = true) as ->
      by (apply Z.ltb_lt; lia).
    reflexivity.
  - assert ((node <? 10 ^ Py.max_str_digits) = true) as ->
      by (apply Z.ltb_lt; lia).
    assert ((node =? 1 + Z.of_nat (length rows)) = false) as ->
      by (apply Z.eqb_neq; lia).
    assert ((node <? 1 + Z.of_nat (length rows)) = false) as ->
      by (apply Z.ltb_ge; lia).
    cbn [negb]. rewrite (Z.add_comm 1). reflexivity.
  - assert ((node <? 10 ^ Py.max_str_digits) = false) as ->
      by (apply Z.ltb_ge; lia).
    reflexivity.
Qed.

Lemma node_order_errors_witness :
  parse_lines ∅ 1 (map (fun l => l +:+ nl) (render_lines 1 [[2]; [1]])
                   ++ ((render_line 1 [2] +:+ nl) :: ["x"]))
  = Message (msg_duplicate_node 1)
  /\ parse_lines ∅ 1 (map (fun l => l +:+ nl) (render_lines 1 [[2]; [1]])
                      ++ ((render_line 5 [2] +:+ nl) :: ["x"]))
     = Message (msg_out_of_order (Z.of_nat (length [[2]; [1]]) + 1) 5)
  /\ parse_lines ∅ 1 (map (fun l => l +:+ nl) (render_lines 1 [[2]; [1]])
                      ++ ((render_line (10 ^ Py.max_str_digits) [2] +:+ nl)
                          :: ["x"]))
     = Message msg_malformed_integer.
Proof.
  assert (0 < 10 ^ Py.max_str_digits) as Hpos
    by (apply Z.pow_pos_nonneg; unfold Py.max_str_digits; lia).
  split; [|split].
  - apply (node_order_errors [[2]; [1]] 1 [2] ["x"]);
      [simpl; lia|repeat constructor; lia|lia|repeat constructor; lia|simpl; lia].
  - apply (node_order_errors [[2]; [1]] 5 [2] ["x"]);
      [simpl; lia|repeat constructor; lia|lia|repeat constructor; lia|].
    split; [simpl; lia|]. apply (small_within_cap 5). lia.
  - apply (node_order_errors [[2]; [1]] (10 ^ Py.max_str_digits) [2] ["x"]);
      [simpl; lia|repeat constructor; lia|lia|repeat constructor; lia|lia].
Defined.

Lemma node_range_needs_51_lines_witness :
  (51 <= length (Py.readlines (unlines (map Py.str (upto 51)))))%nat.
Proof.
  apply node_range_needs_51_lines. vm_compute. reflexivity.
Defined.

(** ** Where the malformed-integer message comes from *)

Lemma lstrip_forallb p s :
  string_forallb p s = true -> string_forallb p (Py.lstrip s) = true.
Proof.
  induction s as [|c s IH]; simpl; [reflexivity|].
  intros [Hc Hs]%andb_true_iff.
  destruct (Py.isspace c); [auto|]. simpl. rewrite Hc, Hs. reflexivity.
Qed.

Lemma rstrip_forallb p s :
  string_forallb p s = true -> string_forallb p (Py.rstrip s) = true.
Proof.
  induction s as [|c s IH]; simpl; [reflexivity|].
  intros [Hc Hs]%andb_true_iff. specialize (IH Hs).
  destruct (Py.rstrip s) as [|c' r'].
  - destruct (Py.isspace c); simpl; [reflexivity|]. rewrite Hc. reflexivity.
  - simpl in *. rewrite Hc, IH. reflexivity.
Qed.

Lemma split_forallb p sep s :
  string_forallb p s = true ->
  Forall (fun t => string_forallb p t = true) (Py.split sep s).
Proof.
  induction s as [|c s IH]; simpl.
  - intros _. repeat constructor.
  - intros [Hc Hs]%andb_true_iff. specialize (IH Hs).
    destruct (Ascii.eqb c sep).
    + constructor; [reflexivity|exact IH].
    + destruct (Py.split sep s) as [|t ts]; [repeat constructor; simpl; rewrite Hc; reflexivity|].
      apply Forall_cons_1 in IH as [Ht Hts].
      constructor; [simpl; rewrite Hc, Ht; reflexivity|exact Hts].
Qed.

Lemma ascii_isdigit_char c :
  is_ascii c = true -> Py.isdigit_char c = true -> ascii_digit c = true.
Proof.
  destruct c as [[] [] [] [] [] [] [] []]; vm_compute; congruence.
Qed.

Lemma ascii_all_digits s :
  string_forallb is_ascii s = true -> Py.all_digits s = true ->
  string_forallb ascii_digit s = true.
Proof.
  induction s as [|c s IH]; simpl; [reflexivity|].
  intros [Hc Hs]%andb_true_iff [Hd Hds]%andb_true_iff.
  rewrite (ascii_isdigit_char c Hc Hd). auto.
Qed.

Lemma ascii_digit_decimal c :
  ascii_digit c = true -> Py.decimal c = Some (Py.ord c - 48).
Proof. unfold ascii_digit, Py.decimal. intros ->. reflexivity. Qed.

Lemma int_digits_total s :
  string_forallb ascii_digit s = true ->
  forall acc, exists v, Py.int_digits acc Py.AfterDigit s = Some v.
Proof.
  induction s as [|c s IH]; simpl; intros Hs acc; [eauto|].
  apply andb_true_iff in Hs as [Hc Hs].
  rewrite (ascii_digit_decimal c Hc). apply IH, Hs.
Qed.

Lemma count_digits_lstrip s :
  Py.count_digits (Py.lstrip s) <= Py.count_digits s.
Proof.
  induction s as [|c s IH]; simpl; [lia|].
  destruct (Py.isspace c); [|simpl; lia].
  destruct (Py.decimal c); lia.
Qed.

Lemma count_digits_rstrip s :
  Py.count_digits (Py.rstrip s) <= Py.count_digits s.
Proof.
  induction s as [|c s IH]; simpl; [lia|].
  pose proof (count_digits_nonneg s) as Hs.
  destruct (Py.rstrip s) as [|c' r'].
  - destruct (Py.isspace c); simpl in *; destruct (Py.decimal c); lia.
  - cbn [Py.count_digits] in *. destruct (Py.decimal c); lia.
Qed.

Lemma count_digits_split sep s :
  Forall (fun t => Py.count_digits t <= Py.count_digits s) (Py.split sep s).
Proof.
  induction s as [|c s IH]; simpl.
  - constructor; [simpl; lia|constructor].
  - pose proof (count_digits_nonneg s) as Hs.
    assert (Py.count_digits s
            <= match Py.decimal c with Some _ => 1 | None => 0 end
               + Py.count_digits s) as Hc by (destruct (Py.decimal c); lia).
    destruct (Ascii.eqb c sep).
    + constructor; [simpl; lia|].
      eapply Forall_impl; [exact IH|]. intros t Ht. simpl in Ht. lia.
    + destruct (Py.split sep s) as [|t ts].
      * constructor; [simpl; lia|constructor].
      * apply Forall_cons_1 in IH as [Ht Hts].
        constructor; [cbn [Py.count_digits]; lia|].
        eapply Forall_impl; [exact Hts|]. intros u Hu. simpl in Hu. lia.
Qed.

(** [int] accepts every non-empty string of ASCII digits that is within the
    cap. *)
Lemma int_ascii_digits s :
  s <> EmptyString -> string_forallb ascii_digit s = true ->
  Py.count_digits s <= Py.max_str_digits ->
  exists v, Py.int s = Some v.
Proof.
  intros Hne Hs Hcap. unfold Py.int.
  destruct s as [|c r]; [congruence|].
  pose proof Hs as Hs'. simpl in Hs'. apply andb_true_iff in Hs' as [Hc Hr].
  destruct (ascii_digit_facts c Hc) as (Hsp & Hplus & Hminus & _).
  cbn [Py.int_lstrip]. rewrite Hsp, (int_rstrip_digits _ Hs), Hplus, Hminus.
  unfold Py.int_body. apply Z.ltb_ge in Hcap. rewrite Hcap.
  cbn [Py.int_digits]. rewrite (ascii_digit_decimal c Hc).
  apply int_digits_total, Hr.
Qed.

Lemma int_of_digit_tokens_ascii tokens :
  Forall (fun t => string_forallb is_ascii t = true) tokens ->
  Forall (fun t => Py.count_digits t <= Py.max_str_digits) tokens ->
  exists ns, int_of_digit_tokens tokens = Some ns.
Proof.
  induction 1 as [|t tokens Ht Htokens IH]; simpl; intros Hcap; [eauto|].
  apply Forall_cons_1 in Hcap as [Hcap Hcaps].
  destruct (IH Hcaps) as [ns Hns].
  destruct (Py.isdigit t) eqn:Hd; [|eauto].
  assert (t <> EmptyString) as Hne by (intros ->; discriminate).
  apply isdigit_all_digits in Hd.
  destruct (int_ascii_digits t Hne (ascii_all_digits t Ht Hd) Hcap) as [v ->].
  rewrite Hns. eauto.
Qed.

(** X15: on a line of ASCII characters with at most 4300 digits the
    malformed-integer message can only come from the leading token: the
    neighbour tokens that pass the digit test always convert.  Both
    conditions are needed: a superscript two passes the digit test and then
    makes the conversion raise, and so does an ASCII neighbour token of 4301
    digits; each gives the malformed-integer message although the node token
    converts. *)
Theorem malformed_integer_origin :
  (forall e line,
      string_forallb is_ascii line = true ->
      Py.count_digits line <= Py.max_str_digits ->
      parse_line e line = inl msg_malformed_integer ->
      Py.int (hd EmptyString (Py.split ","%char (Py.strip line))) = None)
  /\ parse_line 1 ("1," +:+ superscript_two) = inl msg_malformed_integer
  /\ Py.int (hd EmptyString
               (Py.split ","%char (Py.strip ("1," +:+ superscript_two))))
     = Some 1
  /\ string_forallb is_ascii ("1," +:+ long_numeral) = true
  /\ parse_line 1 ("1," +:+ long_numeral) = inl msg_malformed_integer
  /\ Py.int (hd EmptyString
               (Py.split ","%char (Py.strip ("1," +:+ long_numeral))))
     = Some 1.
Proof.
  split; [|repeat split; vm_compute; reflexivity].
  intros e line Hascii Hcap. unfold parse_line.
  destruct (negb (string_forallb allowed_char line)); [discriminate|].
  assert (Forall (fun t => string_forallb is_ascii t = true)
            (tl (Py.split ","%char (Py.strip line)))) as Htokens.
  { apply Forall_tail, split_forallb, rstrip_forallb, lstrip_forallb, Hascii. }
  assert (Forall (fun t => Py.count_digits t <= Py.max_str_digits)
            (tl (Py.split ","%char (Py.strip line)))) as Hcaps.
  { apply Forall_tail.
    eapply Forall_impl; [apply count_digits_split|].
    intros t Ht. simpl in Ht.
    pose proof (count_digits_rstrip (Py.lstrip line)).
    pose proof (count_digits_lstrip line).
    unfold Py.strip in Ht. lia. }
  destruct (Py.int _) as [n|]; [|reflexivity].
  destruct (negb (n =? e)).
  - destruct (n <? e); unfold msg_duplicate_node, msg_out_of_order;
      simpl; discriminate.
  - destruct (out_of_range n); [discriminate|].
    destruct (int_of_digit_tokens_ascii _ Htokens Hcaps) as [ns ->].
    destruct (existsb out_of_range ns); discriminate.
Qed.

Lemma malformed_integer_origin_witness :
  Py.int (hd EmptyString (Py.split ","%char (Py.strip "1 2,3"))) = None.
Proof.
  apply (proj1 malformed_integer_origin 1 "1 2,3");
    [reflexivity|vm_compute; discriminate|reflexivity].
Defined.

(** ** The success path of main *)



(** ** The terminator of the last line *)

Lemma terminate_last_cons l ls :
  ls <> [] -> terminate_last (l :: ls) = l :: terminate_last ls.
Proof. destruct ls; [congruence|reflexivity]. Qed.

Lemma universal_newlines_other a r :
  Ascii.eqb a Py.CR = false ->
  Py.universal_newlines (String a r) = String a (Py.universal_newlines r).
Proof. intros Ha. simpl. rewrite Ha. reflexivity. Qed.

Lemma universal_newlines_cr_lf a b r :
  Ascii.eqb a Py.CR = true -> Ascii.eqb b Py.LF = true ->
  Py.universal_newlines (String a (String b r))
  = String Py.LF (Py.universal_newlines r).
Proof. intros Ha Hb. simpl. rewrite Ha, Hb. reflexivity. Qed.

Lemma universal_newlines_cr_other a b r :
  Ascii.eqb a Py.CR = true -> Ascii.eqb b Py.LF = false ->
  Py.universal_newlines (String a (String b r))
  = String Py.LF (Py.universal_newlines (String b r)).
Proof. intros Ha Hb. simpl. rewrite Ha, Hb. reflexivity. Qed.

(** Newline translation around a character that is neither a carriage
    return nor a line feed: what precedes it is translated on its own. *)
Lemma universal_newlines_split c :
  Ascii.eqb c Py.CR = false -> Ascii.eqb c Py.LF = false ->
  forall s, exists Y, forall t,
    Py.universal_newlines (s +:+ String c t)
    = Y +:+ String c (Py.universal_newlines t).
Proof.
  intros Hcr Hlf.
  assert (forall s,
            (exists Y, forall t,
                Py.universal_newlines (s +:+ String c t)
                = Y +:+ String c (Py.universal_newlines t))
            /\ forall a, exists Y, forall t,
                Py.universal_newlines (String a s +:+ String c t)
                = Y +:+ String c (Py.universal_newlines t)) as Hboth.
  { induction s as [|b s [IH1 IH2]].
    - split; [exists EmptyString; intros t;
              apply (universal_newlines_other c t Hcr)|].
      intros a. destruct (Ascii.eqb a Py.CR) eqn:Ha.
      + exists (String Py.LF EmptyString). intros t.
        change (String a EmptyString +:+ String c t) with (String a (String c t)).
        rewrite (universal_newlines_cr_other a c t Ha Hlf),
          (universal_newlines_other c t Hcr). reflexivity.
      + exists (String a EmptyString). intros t.
        change (String a EmptyString +:+ String c t) with (String a (String c t)).
        rewrite (universal_newlines_other a _ Ha),
          (universal_newlines_other c t Hcr). reflexivity.
    - split; [exact (IH2 b)|].
      intros a. destruct (Ascii.eqb a Py.CR) eqn:Ha.
      + destruct (Ascii.eqb b Py.LF) eqn:Hb.
        * destruct IH1 as [Y HY]. exists (String Py.LF Y). intros t.
          change (String a (String b s) +:+ String c t)
            with (String a (String b (s +:+ String c t))).
          rewrite (universal_newlines_cr_lf a b _ Ha Hb), HY. reflexivity.
        * destruct (IH2 b) as [Y HY]. exists (String Py.LF Y). intros t.
          change (String a (String b s) +:+ String c t)
            with (String a (String b (s +:+ String c t))).
          rewrite (universal_newlines_cr_other a b _ Ha Hb).
          change (String b (s +:+ String c t)) with (String b s +:+ String c t).
          rewrite HY. reflexivity.
      + destruct (IH2 b) as [Y HY]. exists (String a Y). intros t.
        change (String a (String b s) +:+ String c t)
          with (String a (String b s +:+ String c t)).
        rewrite (universal_newlines_other a _ Ha), HY. reflexivity. }
  intros s. exact (proj1 (Hboth s)).
Qed.

Lemma append_cons_nonempty Y c t : Y +:+ String c t <> EmptyString.
Proof.
  destruct Y as [|a Y].
  - change (EmptyString +:+ String c t) with (String c t). discriminate.
  - change (String a Y +:+ String c t) with (String a (Y +:+ String c t)).
    discriminate.
Qed.

Lemma keepends_terminate c :
  Ascii.eqb c Py.LF = false ->
  forall Y, Py.keepends (Y +:+ String c nl)
            = terminate_last (Py.keepends (Y +:+ String c EmptyString)).
Proof.
  intros Hlf. induction Y as [|a Y IH].
  - simpl. rewrite Hlf. reflexivity.
  - change (String a Y +:+ String c nl) with (String a (Y +:+ String c nl)).
    change (String a Y +:+ String c EmptyString)
      with (String a (Y +:+ String c EmptyString)).
    cbn [Py.keepends]. rewrite IH.
    destruct (Py.keepends (Y +:+ String c EmptyString)) as [|l ls] eqn:Hk.
    { apply keepends_nil in Hk. destruct (append_cons_nonempty Y c EmptyString Hk). }
    destruct (Ascii.eqb a Py.LF).
    + reflexivity.
    + destruct ls as [|l2 ls]; reflexivity.
Qed.

Lemma parse_lines_terminate_last ls :
  forall (g : graph_t) e,
    parse_lines g e (terminate_last ls) = parse_lines g e ls.
Proof.
  induction ls as [|l ls IH]; intros g e; [reflexivity|].
  destruct ls as [|l2 ls].
  - cbn [terminate_last parse_lines].
    change (l +:+ nl) with (EmptyString +:+ l +:+ nl).
    rewrite (parse_line_surrounding_whitespace e EmptyString l nl eq_refl eq_refl).
    reflexivity.
  - rewrite terminate_last_cons by discriminate.
    cbn [parse_lines]. destruct (parse_line e l) as [m|[node nbrs]]; [reflexivity|].
    apply IH.
Qed.

(** X17: the terminator of the last line is optional: a text that ends with
    a character other than a line feed or carriage return parses to the same
    result with and without a final line feed. *)
Theorem final_newline_optional s c :
  Ascii.eqb c Py.CR = false -> Ascii.eqb c Py.LF = false ->
  parse_text (s +:+ String c nl) = parse_text (s +:+ String c EmptyString).
Proof.
  intros Hcr Hlf.
  destruct (universal_newlines_split c Hcr Hlf s) as [Y HY].
  unfold parse_text, Py.readlines. rewrite !HY.
  change (Py.universal_newlines nl) with nl.
  change (Py.universal_newlines EmptyString) with EmptyString.
  rewrite (keepends_terminate c Hlf Y).
  destruct (Py.keepends (Y +:+ String c EmptyString)) as [|l ls] eqn:Hk.
  { reflexivity. }
  destruct (terminate_last (l :: ls)) as [|l' ls'] eqn:Ht.
  { destruct ls; discriminate Ht. }
  rewrite <- Ht. apply parse_lines_terminate_last.
Qed.

Lemma final_newline_optional_witness :
  parse_text (("1,2" +:+ nl +:+ "2,") +:+ String "1"%char nl)
  = parse_text (("1,2" +:+ nl +:+ "2,") +:+ String "1"%char EmptyString).
Proof.
  apply final_newline_optional; reflexivity.
Defined.
